(** * leap-call-quote: the leverage engine and the default-expiration selector

    A shallow embedding of [leapCallQuote.py].  The numeric core works on
    numpy [float64] arrays, so numbers are IEEE 754 binary64 values (Rocq's
    primitive [float], specified by [SpecFloat]); arrays are lists; a Python
    call either returns a value or raises an exception ([outcome]). *)

From Stdlib Require Import String Ascii.
From Stdlib Require Import ZArith List Bool Lia Floats Permutation.
Import ListNotations.

(** ** Python calls: return or raise *)

Inductive exn : Type :=
| ValueError (msg : string)
| IndexError (msg : string).

Inductive outcome (A : Type) : Type :=
| Returns (a : A)
| Raises (e : exn).

Arguments Returns {A} a.
Arguments Raises {A} e.

Definition bind {A B : Type} (c : outcome A) (k : A -> outcome B) : outcome B :=
  match c with
  | Returns a => k a
  | Raises e => Raises e
  end.

Notation "x <- c ;; k" := (bind c (fun x => k))
  (at level 61, c at next level, right associativity).

(** ** numpy float64 arrays *)

Module Np.
Open Scope float_scope.

Definition ndarray := list float.

(** [a / xs]: a Python scalar broadcast against an array. *)
Definition rdiv (a : float) (xs : ndarray) : ndarray := map (fun x => a / x) xs.

(** [xs / a] *)
Definition div_scalar (xs : ndarray) (a : float) : ndarray := map (fun x => x / a) xs.

(** [a - xs] *)
Definition rsub (a : float) (xs : ndarray) : ndarray := map (fun x => a - x) xs.

(** Element-wise binary operation on two arrays of one shape (both are
    columns of the same frame wherever the program uses it). *)
Fixpoint zip_with (f : float -> float -> float) (xs ys : ndarray) : ndarray :=
  match xs, ys with
  | x :: xs', y :: ys' => f x y :: zip_with f xs' ys'
  | _, _ => []
  end.

Definition sub (xs ys : ndarray) : ndarray := zip_with PrimFloat.sub xs ys.
Definition div (xs ys : ndarray) : ndarray := zip_with PrimFloat.div xs ys.

(** [numpy.maximum] on float64, as [clip] applies it: NaN when the first
    operand is NaN, the first operand when it is above the second, else the
    second; a zero of either sign, clipped at 0, comes out as +0.0. *)
Definition maximum (x lo : float) : float :=
  if is_nan x then x else if lo <? x then x else lo.

(** [xs.clip(min=lo)], which numpy evaluates as [maximum(xs, lo)]. *)
Definition clip_min (xs : ndarray) (lo : float) : ndarray :=
  map (fun x => maximum x lo) xs.

(** [xs >= a], [xs <= a] and [m1 & m2] *)
Definition ge_scalar (xs : ndarray) (a : float) : list bool := map (fun x => a <=? x) xs.
Definition le_scalar (xs : ndarray) (a : float) : list bool := map (fun x => x <=? a) xs.

Fixpoint mask_and (m1 m2 : list bool) : list bool :=
  match m1, m2 with
  | b1 :: m1', b2 :: m2' => (b1 && b2) :: mask_and m1' m2'
  | _, _ => []
  end.

(** Selection of the entries of [xs] under a mask of the same length. *)
Fixpoint select (xs : ndarray) (mask : list bool) : ndarray :=
  match xs, mask with
  | x :: xs', b :: mask' => if b then x :: select xs' mask' else select xs' mask'
  | _, _ => []
  end.

(** [xs[mask]]: boolean indexing; numpy raises [IndexError] when the mask
    and the array differ in length. *)
Definition getitem_mask (xs : ndarray) (mask : list bool) : outcome ndarray :=
  if Nat.eqb (length xs) (length mask) then Returns (select xs mask)
  else Raises (IndexError "boolean index did not match indexed array along axis 0").

End Np.

(** ** The option chain *)

(** One row of the [calls] frame; only the columns the program reads. *)
Record OptionQuote : Type := { strike : float; ask : float }.

Definition DataFrame := list OptionQuote.

Module Engine.
Open Scope float_scope.

(** The local variables of [calculate_leverage_ratios], by their names. *)
Record Locals : Type := {
  strikes : Np.ndarray;
  premiums : Np.ndarray;
  leverage_ratios : Np.ndarray;
  future_price : float;
  intrinsic_gains : Np.ndarray;
  premium_gains : Np.ndarray;
  adjusted_ratios : Np.ndarray
}.

(** The body of [calculate_leverage_ratios(calls, stock_price, gain_pct)],
    statement by statement.  The Python numbers [stock_price] and [gain_pct]
    are taken as binary64 values (the integers a slider delivers convert
    exactly, and [int / 100] is the correctly rounded quotient, as the float
    division is). *)
Definition calculate_leverage_ratios_body (calls : DataFrame) (stock_price gain_pct : float)
  : Locals :=
  let strikes := map strike calls in
  let premiums := map ask calls in
  let leverage_ratios := Np.rdiv stock_price premiums in
  let future_price := stock_price * (1 + gain_pct / 100) in
  let intrinsic_gains := Np.clip_min (Np.rsub future_price strikes) 0 in
  let premium_gains := Np.sub intrinsic_gains premiums in
  let adjusted_ratios := Np.div_scalar (Np.div premium_gains premiums) (gain_pct / 100) in
  {| strikes := strikes; premiums := premiums; leverage_ratios := leverage_ratios;
     future_price := future_price; intrinsic_gains := intrinsic_gains;
     premium_gains := premium_gains; adjusted_ratios := adjusted_ratios |}.

(** The call: the body, then
    [return strikes, leverage_ratios, adjusted_ratios, premiums]. *)
Definition calculate_leverage_ratios (calls : DataFrame) (stock_price gain_pct : float)
  : outcome (Np.ndarray * Np.ndarray * Np.ndarray * Np.ndarray) :=
  let vars := calculate_leverage_ratios_body calls stock_price gain_pct in
  Returns (strikes vars, leverage_ratios vars, adjusted_ratios vars, premiums vars).

(** The mask [(strikes >= min_strike) & (strikes <= max_strike)]. *)
Definition strike_mask (strikes : Np.ndarray) (min_strike max_strike : float) : list bool :=
  Np.mask_and (Np.ge_scalar strikes min_strike) (Np.le_scalar strikes max_strike).

(** The strike-range filter of [main] (the specification's
    [filterByStrikeRange]): [min_range] and [max_range] are the two ends of
    the range slider, in percent; the mask is evaluated for each array. *)
Definition filter_by_strike_range
  (result : Np.ndarray * Np.ndarray * Np.ndarray * Np.ndarray)
  (stock_price min_range max_range : float)
  : outcome (Np.ndarray * Np.ndarray * Np.ndarray * Np.ndarray) :=
  let '(strikes, leverage_ratios, adjusted_ratios, premiums) := result in
  let min_strike := stock_price * (1 + min_range / 100) in
  let max_strike := stock_price * (1 + max_range / 100) in
  filtered_strikes <- Np.getitem_mask strikes (strike_mask strikes min_strike max_strike) ;;
  filtered_leverage_ratios <-
    Np.getitem_mask leverage_ratios (strike_mask strikes min_strike max_strike) ;;
  filtered_adjusted_ratios <-
    Np.getitem_mask adjusted_ratios (strike_mask strikes min_strike max_strike) ;;
  filtered_premiums <- Np.getitem_mask premiums (strike_mask strikes min_strike max_strike) ;;
  Returns (filtered_strikes, filtered_leverage_ratios, filtered_adjusted_ratios,
           filtered_premiums).

(** The computing part of [main]: the engine, then the filter.  What the
    widgets and the data provider deliver is passed in; what is returned is
    handed to the plot. *)
Definition main (calls : DataFrame) (stock_price target_percentage min_range max_range : float)
  : outcome (Np.ndarray * Np.ndarray * Np.ndarray * Np.ndarray) :=
  result <- calculate_leverage_ratios calls stock_price target_percentage ;;
  filter_by_strike_range result stock_price min_range max_range.

End Engine.

(** ** The formulas of the specification, row by row

    These follow the specification's words (§3), over the same binary64
    arithmetic; the engine's arrays are compared with them below. *)

Module Spec.
Open Scope float_scope.

(** [max(a, b)] on floats: [a] when it is above [b], else [b]; a NaN [a]
    stays NaN. *)
Definition max (a b : float) : float :=
  if is_nan a then a else if b <? a then a else b.

Definition targetPrice (currentPrice targetPct : float) : float :=
  currentPrice * (1 + targetPct / 100).

Definition leverageRatio (currentPrice premium : float) : float :=
  currentPrice / premium.

Definition intrinsicGain (currentPrice targetPct strike : float) : float :=
  max (targetPrice currentPrice targetPct - strike) 0.

Definition premiumGain (currentPrice targetPct strike premium : float) : float :=
  intrinsicGain currentPrice targetPct strike - premium.

Definition adjustedLeverageRatio (currentPrice targetPct strike premium : float) : float :=
  (premiumGain currentPrice targetPct strike premium / premium) / (targetPct / 100).

End Spec.

(** ** Expiration dates *)

Module Expiry.
Open Scope Z_scope.

(** A [datetime] is a point of the proleptic Gregorian time line, counted in
    microseconds from 0001-01-01T00:00:00; a [timedelta] is a number of
    microseconds.  Python orders timedeltas by (days, seconds, microseconds),
    which is the order of these counts. *)
Definition datetime := Z.
Definition timedelta := Z.

Definition us_per_day : Z := 86400 * 1000000.

Definition timedelta_days (days : Z) : timedelta := days * us_per_day.

Definition is_leap (year : Z) : bool :=
  (year mod 4 =? 0) && (negb (year mod 100 =? 0) || (year mod 400 =? 0)).

Definition days_in_month (year month : Z) : Z :=
  if month =? 2 then (if is_leap year then 29 else 28)
  else if (month =? 4) || (month =? 6) || (month =? 9) || (month =? 11) then 30
  else 31.

Definition days_before_year (year : Z) : Z :=
  let y := year - 1 in y * 365 + y / 4 - y / 100 + y / 400.

(** Days of [year] before the first of [month]. *)
Fixpoint days_before_month_nat (year : Z) (month : nat) : Z :=
  match month with
  | S (S _ as m) => days_before_month_nat year m + days_in_month year (Z.of_nat m)
  | _ => 0
  end.

Definition days_before_month (year month : Z) : Z :=
  days_before_month_nat year (Z.to_nat month).

(** [date(year, month, day).toordinal()]: 0001-01-01 is day 1. *)
Definition ymd2ord (year month day : Z) : Z :=
  days_before_year year + days_before_month year month + day.

(** Midnight at the start of the given day. *)
Definition datetime_of_ymd (year month day : Z) : datetime :=
  (ymd2ord year month day - 1) * us_per_day.

(** *** [datetime.strptime(x, '%Y-%m-%d')] on ASCII strings

    The messages of the errors are shortened: Python adds the offending
    text to them.

    The format compiles to the regular expression
    [(\d\d\d\d)-(1[0-2]|0[1-9]|[1-9])-(3[01]|[12]\d|0[1-9]|[1-9]| [1-9])],
    matched at the start of the string with alternatives tried in order. *)

Definition digit (c : ascii) : option Z :=
  let n := Z.of_N (N_of_ascii c) in
  if (48 <=? n) && (n <=? 57) then Some (n - 48) else None.

Definition digit_in (lo hi : Z) (c : ascii) : option Z :=
  match digit c with
  | Some d => if (lo <=? d) && (d <=? hi) then Some d else None
  | None => None
  end.

(** The candidates of an alternation, in the order the matcher tries them:
    each is the number read and the rest of the input. *)
Definition candidates := list (Z * list ascii).

Definition one_digit (lo hi : Z) (cs : list ascii) : candidates :=
  match cs with
  | c :: rest => match digit_in lo hi c with Some d => [(d, rest)] | None => [] end
  | [] => []
  end.

Definition two_digits (lo1 hi1 lo2 hi2 : Z) (cs : list ascii) : candidates :=
  match cs with
  | c1 :: c2 :: rest =>
      match digit_in lo1 hi1 c1, digit_in lo2 hi2 c2 with
      | Some d1, Some d2 => [(10 * d1 + d2, rest)]
      | _, _ => []
      end
  | _ => []
  end.

Definition space_digit (cs : list ascii) : candidates :=
  match cs with
  | c :: rest => if Ascii.eqb c " " then one_digit 1 9 rest else []
  | [] => []
  end.

(** [1[0-2]|0[1-9]|[1-9]] *)
Definition month_candidates (cs : list ascii) : candidates :=
  two_digits 1 1 0 2 cs ++ two_digits 0 0 1 9 cs ++ one_digit 1 9 cs.

(** [3[01]|[12]\d|0[1-9]|[1-9]| [1-9]] *)
Definition day_candidates (cs : list ascii) : candidates :=
  two_digits 3 3 0 1 cs ++ two_digits 1 2 0 9 cs ++ two_digits 0 0 1 9 cs
  ++ one_digit 1 9 cs ++ space_digit cs.

(** [\d\d\d\d] *)
Definition year_candidates (cs : list ascii) : candidates :=
  match cs with
  | c1 :: c2 :: c3 :: c4 :: rest =>
      match digit c1, digit c2, digit c3, digit c4 with
      | Some d1, Some d2, Some d3, Some d4 =>
          [(1000 * d1 + 100 * d2 + 10 * d3 + d4, rest)]
      | _, _, _, _ => []
      end
  | _ => []
  end.

Definition dash (cs : list ascii) : option (list ascii) :=
  match cs with
  | c :: rest => if Ascii.eqb c "-" then Some rest else None
  | [] => None
  end.

(** Backtracking: the first candidate whose continuation matches. *)
Fixpoint first_match {B : Type} (cands : candidates) (k : Z -> list ascii -> option B)
  : option B :=
  match cands with
  | [] => None
  | (n, rest) :: cands' =>
      match k n rest with
      | Some b => Some b
      | None => first_match cands' k
      end
  end.

(** The match of the whole format: year, month, day and the unread rest. *)
Definition match_Ymd (cs : list ascii) : option (Z * Z * Z * list ascii) :=
  first_match (year_candidates cs) (fun y cs1 =>
    match dash cs1 with
    | None => None
    | Some cs2 =>
        first_match (month_candidates cs2) (fun m cs3 =>
          match dash cs3 with
          | None => None
          | Some cs4 =>
              first_match (day_candidates cs4) (fun d cs5 => Some (y, m, d, cs5))
          end)
    end).

Definition strptime_Ymd (x : string) : outcome datetime :=
  match match_Ymd (list_ascii_of_string x) with
  | None => Raises (ValueError "time data does not match format '%Y-%m-%d'")
  | Some (y, m, d, rest) =>
      match rest with
      | _ :: _ => Raises (ValueError "unconverted data remains")
      | [] =>
          if y <? 1 then Raises (ValueError "year 0 is out of range")
          else if days_in_month y m <? d then Raises (ValueError "day is out of range for month")
          else Returns (datetime_of_ymd y m d)
      end
  end.

(** *** The built-in [min(iterable, key=...)] *)

(** The error of [min] on an empty iterable (in the wording of CPython up
    to 3.11). *)
Definition empty_min : exn := ValueError "min() arg is an empty sequence".

(** The scan keeps the item seen first among those of least key: an item
    replaces the best one only when its key is strictly smaller. *)
Fixpoint min_scan {A : Type} (key : A -> outcome Z) (best : A) (best_key : Z) (rest : list A)
  : outcome A :=
  match rest with
  | [] => Returns best
  | x :: rest' =>
      k <- key x ;;
      if k <? best_key then min_scan key x k rest' else min_scan key best best_key rest'
  end.

Definition py_min {A : Type} (xs : list A) (key : A -> outcome Z) : outcome A :=
  match xs with
  | [] => Raises empty_min
  | x :: rest => k <- key x ;; min_scan key x k rest
  end.

(** The key of the scan: [abs(datetime.strptime(x, '%Y-%m-%d') - one_year_later)]. *)
Definition distance (one_year_later : datetime) (x : string) : outcome timedelta :=
  d <- strptime_Ymd x ;; Returns (Z.abs (d - one_year_later)).

(** [get_default_expiration(expirations)]; the clock reading
    [datetime.today()] is the parameter [today]. *)
Definition get_default_expiration (today : datetime) (expirations : list string)
  : outcome string :=
  let one_year_later := today + timedelta_days 365 in
  let default_expiration := py_min expirations (distance one_year_later) in
  default_expiration.

End Expiry.

(** ** Vocabulary of the statements *)

(** The row-wise view of four parallel arrays. *)
Fixpoint rows (strikes leverage_ratios adjusted_ratios premiums : Np.ndarray)
  : list (float * float * float * float) :=
  match strikes, leverage_ratios, adjusted_ratios, premiums with
  | s :: ss, l :: ls, a :: aa, p :: ps => (s, l, a, p) :: rows ss ls aa ps
  | _, _, _, _ => []
  end.

Definition row_strike (r : float * float * float * float) : float :=
  let '(s, _, _, _) := r in s.

(** [subseq xs ys]: [xs] is [ys] with some entries left out, order kept. *)
Inductive subseq {A : Type} : list A -> list A -> Prop :=
| subseq_nil : subseq [] []
| subseq_keep x xs ys : subseq xs ys -> subseq (x :: xs) (x :: ys)
| subseq_drop y xs ys : subseq xs ys -> subseq xs (y :: ys).

Module Band.
Open Scope float_scope.

(** The band of the specification's [filterByStrikeRange] (§4.2). *)
Definition minStrike (currentPrice lowPct : float) : float :=
  currentPrice * (1 + lowPct / 100).

Definition maxStrike (currentPrice highPct : float) : float :=
  currentPrice * (1 + highPct / 100).

Definition retained (currentPrice lowPct highPct strike : float) : bool :=
  (minStrike currentPrice lowPct <=? strike) && (strike <=? maxStrike currentPrice highPct).

End Band.

(** The inputs of the specification's scenarios (§8). *)
Module Scenario.
Open Scope float_scope.

Definition quotes : DataFrame :=
  [ {| strike := 90; ask := 12 |};
    {| strike := 100; ask := 5 |};
    {| strike := 110; ask := 1 |} ].

Definition unquoted : DataFrame := [ {| strike := 100; ask := 0 |} ].

(** The binary64 value next above 10, and the strike [100 * (1 + 10 / 100)]. *)
Definition just_above_ten : float := 0x1.4000000000001p+3.
Definition strike_110 : float := 0x1.b800000000001p+6.

Definition reference_date : Expiry.datetime := Expiry.datetime_of_ymd 2025 1 10.

End Scenario.

(** ** The position of a binary64 value on the integer line

    A finite value [m * 2^e] sits at [m * 2^(e + 1074)], a multiple of the
    least subnormal; the infinities sit beyond every finite value. *)

Module Line.
Open Scope Z_scope.

Definition ordZ (x : spec_float) : Z :=
  match x with
  | S754_zero _ => 0
  | S754_nan => 0
  | S754_infinity s => cond_Zopp s (2 ^ 2098)
  | S754_finite s m e => cond_Zopp s (Zpos m * 2 ^ (e + 1074))
  end.

Definition is_nan_sf (x : spec_float) : bool :=
  match x with S754_nan => true | _ => false end.

Definition nonfinite_sf (x : spec_float) : bool :=
  match x with S754_infinity _ | S754_nan => true | _ => false end.

(** [x] is a zero, a finite value or an infinity of sign [s]. *)
Definition signed_as (s : bool) (x : spec_float) : Prop :=
  match x with
  | S754_zero s' | S754_infinity s' | S754_finite s' _ _ => s' = s
  | S754_nan => False
  end.

End Line.

(** ** The ticker symbol of [main]

    A Python [str] of ASCII text is a [string]; [chars] is the list of its
    characters. *)

Module Symbol.

Definition chars (s : string) : list ascii := list_ascii_of_string s.

Definition is_ascii (c : ascii) : bool := (N_of_ascii c <? 128)%N.

Definition is_lower (c : ascii) : bool :=
  ((97 <=? N_of_ascii c) && (N_of_ascii c <=? 122))%N.

Definition is_upper (c : ascii) : bool :=
  ((65 <=? N_of_ascii c) && (N_of_ascii c <=? 90))%N.

(** The character class [[A-Za-z]]. *)
Definition is_letter (c : ascii) : bool := is_upper c || is_lower c.

(** [str.upper()] on ASCII text: the letters a-z move to A-Z.  Outside
    ASCII Python's case mapping is another ([is_ascii] marks the text this
    models). *)
Definition upper_char (c : ascii) : ascii :=
  if is_lower c then ascii_of_N (N_of_ascii c - 32) else c.

Fixpoint upper (s : string) : string :=
  match s with
  | EmptyString => EmptyString
  | String c s' => String (upper_char c) (upper s')
  end.

(** The scan of [re.findall(r'[A-Za-z]+', s)]: [run] holds the match being
    read, latest character first; a match ends at the first character that
    is no letter, or at the end of the text. *)
Fixpoint findall_scan (run : list ascii) (s : string) : list string :=
  match s with
  | EmptyString =>
      match run with
      | [] => []
      | _ :: _ => [string_of_list_ascii (rev run)]
      end
  | String c s' =>
      if is_letter c then findall_scan (c :: run) s'
      else
        match run with
        | [] => findall_scan [] s'
        | _ :: _ => string_of_list_ascii (rev run) :: findall_scan [] s'
        end
  end.

Definition findall_letters (s : string) : list string := findall_scan [] s.

(** ["".join(parts)] *)
Definition join (parts : list string) : string :=
  fold_right String.append EmptyString parts.

(** Lines 81-82 of [main]: [text] is what the text input delivers. *)
Definition main_symbol (text : string) : string :=
  let symbol := upper text in
  let symbol := upper (join (findall_letters symbol)) in
  symbol.

End Symbol.

(** ** The default of the expiration select box *)

Module Selection.

(** [xs.index(x)] on a tuple of strings: the position of the first entry
    equal to [x]. *)
Fixpoint index (xs : list string) (x : string) : outcome nat :=
  match xs with
  | [] => Raises (ValueError "tuple.index(x): x not in tuple")
  | y :: rest =>
      if String.eqb y x then Returns O
      else i <- index rest x ;; Returns (S i)
  end.

(** Lines 86 and 89 of [main]: the default expiration and its position,
    which the select box takes as its initial index. *)
Definition main_default_index (today : Expiry.datetime) (expirations : list string)
  : outcome nat :=
  default_expiration <- Expiry.get_default_expiration today expirations ;;
  index expirations default_expiration.

End Selection.

(** ** The break-even prices of [plot_leverage_ratios] *)

Module Plot.

(** [break_even_prices = strikes + premiums] *)
Definition break_even_prices (strikes premiums : Np.ndarray) : Np.ndarray :=
  Np.zip_with PrimFloat.add strikes premiums.

(** [main] handing its filtered arrays to the plot: the break-even prices
    that label the secondary axis, one per tick at [filtered_strikes]. *)
Definition main_break_even_prices
  (calls : DataFrame) (stock_price target_percentage min_range max_range : float)
  : outcome (Np.ndarray * Np.ndarray) :=
  series <- Engine.main calls stock_price target_percentage min_range max_range ;;
  let '(filtered_strikes, _, _, filtered_premiums) := series in
  Returns (filtered_strikes, break_even_prices filtered_strikes filtered_premiums).

End Plot.

(** * Facts about binary64 arithmetic *)

Module LineFacts.
Import Line.
Open Scope Z_scope.

Lemma digits2_pos_bounds (m : positive) :
  2 ^ (Zpos (digits2_pos m) - 1) <= Zpos m < 2 ^ Zpos (digits2_pos m).
Proof.
  induction m as [m IH | m IH | ]; cbn [digits2_pos].
  - rewrite Pos2Z.inj_succ.
    replace (Z.succ (Zpos (digits2_pos m)) - 1) with (Z.succ (Zpos (digits2_pos m) - 1)) by lia.
    rewrite !Z.pow_succ_r by lia. lia.
  - rewrite Pos2Z.inj_succ.
    replace (Z.succ (Zpos (digits2_pos m)) - 1) with (Z.succ (Zpos (digits2_pos m) - 1)) by lia.
    rewrite !Z.pow_succ_r by lia. lia.
  - cbn. lia.
Qed.

Lemma valid_finite_bounds s m e :
  valid_binary (S754_finite s m e) = true ->
  -1074 <= e <= 971 /\ Zpos m < 2 ^ 53 /\ (-1074 < e -> 2 ^ 52 <= Zpos m).
Proof.
  cbn [SpecFloat.valid_binary]. unfold bounded, canonical_mantissa, fexp, SpecFloat.emin.
  change prec with 53. change emax with 1024.
  intros H. apply andb_true_iff in H as [Hc He].
  apply Z.eqb_eq in Hc. apply Z.leb_le in He.
  pose proof (digits2_pos_bounds m) as [Hlo Hhi].
  set (d := Zpos (digits2_pos m)) in *.
  assert (Hd : d <= 53) by lia.
  split; [lia|]. split.
  - apply Z.lt_le_trans with (2 ^ d); [exact Hhi|].
    apply Z.pow_le_mono_r; lia.
  - intros Hgt. assert (d = 53) by lia.
    replace 52 with (d - 1) by lia. exact Hlo.
Qed.

Lemma finite_scaled_lt m1 e1 m2 e2 :
  -1074 <= e1 -> e1 < e2 -> Zpos m1 < 2 ^ 53 -> 2 ^ 52 <= Zpos m2 ->
  Zpos m1 * 2 ^ (e1 + 1074) < Zpos m2 * 2 ^ (e2 + 1074).
Proof.
  intros H1 H12 Hm1 Hm2.
  assert (HP : 0 < 2 ^ (e1 + 1074)) by (apply Z.pow_pos_nonneg; lia).
  assert (HQ : 2 * 2 ^ (e1 + 1074) <= 2 ^ (e2 + 1074)).
  { rewrite <- Z.pow_succ_r by lia. apply Z.pow_le_mono_r; lia. }
  change (2 ^ 53) with (2 * 2 ^ 52) in Hm1.
  set (P := 2 ^ (e1 + 1074)) in *. set (Q := 2 ^ (e2 + 1074)) in *.
  set (T := 2 ^ 52) in *.
  assert (0 < T) by (unfold T; lia).
  nia.
Qed.

Lemma finite_below_infinity m e :
  -1074 <= e <= 971 -> Zpos m < 2 ^ 53 -> Zpos m * 2 ^ (e + 1074) < 2 ^ 2098.
Proof.
  intros He Hm.
  assert (HP : 0 < 2 ^ (e + 1074)) by (apply Z.pow_pos_nonneg; lia).
  assert (HQ : 2 ^ (e + 1074) <= 2 ^ 2045) by (apply Z.pow_le_mono_r; lia).
  replace (2 ^ 2098) with (2 ^ 53 * 2 ^ 2045) by (rewrite <- Z.pow_add_r by lia; reflexivity).
  set (P := 2 ^ (e + 1074)) in *. set (Q := 2 ^ 2045) in *. set (T := 2 ^ 53) in *.
  nia.
Qed.

Ltac cmp_solve :=
  cbn [cond_Zopp];
  first [ apply Z.compare_eq_iff; lia
        | apply Z.compare_lt_iff; lia
        | apply Z.compare_gt_iff; lia ].

Lemma compare_scaled mx ex my ey :
  valid_binary (S754_finite false mx ex) = true ->
  valid_binary (S754_finite false my ey) = true ->
  (Zpos mx * 2 ^ (ex + 1074) ?= Zpos my * 2 ^ (ey + 1074)) =
  match ex ?= ey with Lt => Lt | Gt => Gt | Eq => Pos.compare_cont Eq mx my end.
Proof.
  intros Vx Vy.
  apply valid_finite_bounds in Vx as (Hex & Hmx & Hnx).
  apply valid_finite_bounds in Vy as (Hey & Hmy & Hny).
  destruct (Z.compare_spec ex ey) as [E | L | G].
  - subst ey. rewrite <- Zmult_compare_compat_r
      by (apply Z.lt_gt, Z.pow_pos_nonneg; lia).
    reflexivity.
  - apply Z.compare_lt_iff. apply finite_scaled_lt; lia.
  - apply Z.compare_gt_iff. apply finite_scaled_lt; lia.
Qed.

Lemma SFcompare_ordZ (x y : spec_float) :
  valid_binary x = true -> valid_binary y = true ->
  is_nan_sf x = false -> is_nan_sf y = false ->
  SFcompare x y = Some (ordZ x ?= ordZ y).
Proof.
  intros Vx Vy Nx Ny.
  assert (Hinf : 0 < 2 ^ 2098) by (apply Z.pow_pos_nonneg; lia).
  destruct x as [sx | sx | | sx mx ex]; try discriminate Nx;
  destruct y as [sy | sy | | sy my ey]; try discriminate Ny;
  try (pose proof (compare_scaled mx ex my ey Vx Vy) as Hcmp);
  try (apply valid_finite_bounds in Vx as (Hex & Hmx & Hnx));
  try (apply valid_finite_bounds in Vy as (Hey & Hmy & Hny));
  try (pose proof (finite_below_infinity mx ex Hex Hmx) as Bx);
  try (pose proof (finite_below_infinity my ey Hey Hmy) as By);
  try (assert (Px : 0 < Zpos mx * 2 ^ (ex + 1074))
        by (apply Z.mul_pos_pos; [lia|apply Z.pow_pos_nonneg; lia]));
  try (assert (Py : 0 < Zpos my * 2 ^ (ey + 1074))
        by (apply Z.mul_pos_pos; [lia|apply Z.pow_pos_nonneg; lia]));
  cbn [SFcompare ordZ]; f_equal; symmetry;
  try (set (A := Zpos mx * 2 ^ (ex + 1074)) in * );
  try (set (B := Zpos my * 2 ^ (ey + 1074)) in * );
  try (destruct sx); try (destruct sy); try cmp_solve.
  - cbn [cond_Zopp]. rewrite Z.compare_opp, (Z.compare_antisym A B), Hcmp.
    destruct (ex ?= ey); reflexivity.
  - exact Hcmp.
Qed.

(** Rounding keeps the sign. *)

Lemma shr_1_nonneg mrs : 0 <= shr_m mrs -> 0 <= shr_m (shr_1 mrs).
Proof.
  destruct mrs as [m r s]. cbn [shr_m]. intros Hm.
  destruct m as [ | [p | p | ] | p ]; cbn; lia.
Qed.

Lemma iter_pos_nonneg p mrs :
  0 <= shr_m mrs -> 0 <= shr_m (iter_pos shr_1 p mrs).
Proof.
  revert mrs. induction p as [p IH | p IH | ]; intros mrs Hm; cbn [iter_pos].
  - apply IH, IH, shr_1_nonneg, Hm.
  - apply IH, IH, Hm.
  - apply shr_1_nonneg, Hm.
Qed.

Lemma shr_fexp_nonneg m e l :
  0 <= m -> 0 <= shr_m (fst (shr_fexp prec emax m e l)).
Proof.
  intros Hm. unfold shr_fexp, shr.
  assert (H0 : 0 <= shr_m (shr_record_of_loc m l)) by (destruct l as [ | [ | | ] ]; exact Hm).
  destruct (fexp prec emax (Zdigits2 m + e) - e); cbn [fst]; auto.
  apply iter_pos_nonneg, H0.
Qed.

Lemma round_nearest_even_nonneg m l : 0 <= m -> 0 <= round_nearest_even m l.
Proof.
  intros Hm. destruct l as [ | [ | | ] ]; cbn [round_nearest_even]; try lia.
  destruct (Z.even m); lia.
Qed.

Lemma binary_round_aux_signed s m e l :
  0 <= m -> signed_as s (binary_round_aux prec emax s m e l).
Proof.
  intros Hm. unfold binary_round_aux.
  pose proof (shr_fexp_nonneg m e l Hm) as H1.
  destruct (shr_fexp prec emax m e l) as [mrs' e'] eqn:E1. cbn [fst] in H1.
  pose proof (shr_fexp_nonneg _ e' loc_Exact
                (round_nearest_even_nonneg _ (loc_of_shr_record mrs') H1)) as H2.
  destruct (shr_fexp prec emax _ e' loc_Exact) as [mrs'' e''] eqn:E2. cbn [fst] in H2.
  destruct (shr_m mrs'') as [ | p | p ]; cbn [signed_as].
  - reflexivity.
  - destruct (e'' <=? emax - prec); reflexivity.
  - lia.
Qed.

Lemma binary_normalize_signed m e :
  m <= 0 ->
  binary_normalize prec emax m e false = S754_zero false \/
  signed_as true (binary_normalize prec emax m e false).
Proof.
  intros Hm. destruct m as [ | p | p ]; cbn [binary_normalize]; [now left|lia|right].
  unfold binary_round. destruct (shl_align _ _ _) as [mz ez].
  apply binary_round_aux_signed. lia.
Qed.

Lemma iter_xO_value m d : Zpos (Pos.iter xO m d) = Zpos m * 2 ^ Zpos d.
Proof.
  induction d as [ | d IH] using Pos.peano_ind.
  - cbn [Pos.iter]. rewrite Pos2Z.inj_xO. change (2 ^ 1) with 2. lia.
  - rewrite Pos.iter_succ, Pos2Z.inj_xO, IH, Pos2Z.inj_succ, Z.pow_succ_r by lia. lia.
Qed.

Lemma shl_align_value m e e' :
  e' <= e -> Zpos (fst (shl_align m e e')) = Zpos m * 2 ^ (e - e').
Proof.
  intros He. unfold shl_align.
  destruct (e' - e) as [ | d | d ] eqn:E; cbn [fst].
  - replace (e - e') with 0 by lia. change (2 ^ 0) with 1. lia.
  - lia.
  - rewrite iter_xO_value. f_equal. f_equal. lia.
Qed.

(** The exact difference that [SFsub] rounds, scaled to the common grid,
    is the difference of the two positions on the line. *)
Lemma aligned_scaled s m e ez :
  -1074 <= ez -> ez <= e ->
  cond_Zopp s (Zpos (fst (shl_align m e ez))) * 2 ^ (ez + 1074) =
  ordZ (S754_finite s m e).
Proof.
  intros Hz He. rewrite shl_align_value by exact He. cbn [ordZ].
  replace (e + 1074) with ((e - ez) + (ez + 1074)) by lia.
  rewrite (Z.pow_add_r 2 (e - ez) (ez + 1074)) by lia.
  destruct s; cbn [cond_Zopp]; ring.
Qed.

Lemma SFsub_le_signed (x y : spec_float) :
  valid_binary x = true -> valid_binary y = true ->
  SFleb x y = true ->
  match y with S754_infinity _ => False | _ => True end ->
  (exists s, SF64sub x y = S754_zero s) \/ signed_as true (SF64sub x y).
Proof.
  intros Vx Vy Hle Hfin.
  assert (Nx : is_nan_sf x = false) by (destruct x; [reflexivity..|discriminate Hle|reflexivity]).
  assert (Ny : is_nan_sf y = false)
    by (destruct y; [reflexivity..| |reflexivity]; destruct x; discriminate Hle).
  pose proof (SFcompare_ordZ x y Vx Vy Nx Ny) as Hc.
  assert (Hord : ordZ x <= ordZ y).
  { unfold SFleb in Hle. rewrite Hc in Hle.
    destruct (Z.compare_spec (ordZ x) (ordZ y)); first [lia | discriminate Hle]. }
  destruct x as [sx | sx | | sx mx ex]; try discriminate Nx;
  destruct y as [sy | sy | | sy my ey]; try discriminate Ny; try contradiction;
  unfold SF64sub; cbn [SFsub].
  - left. destruct sx, sy; eauto.
  - right. destruct sy; cbn [signed_as negb]; [|reflexivity].
    exfalso. cbn [ordZ cond_Zopp] in Hord.
    apply valid_finite_bounds in Vy as (Hey & _ & _).
    assert (0 < Zpos my * 2 ^ (ey + 1074))
      by (apply Z.mul_pos_pos; [lia|apply Z.pow_pos_nonneg; lia]). lia.
  - right. destruct sx; cbn [signed_as]; [reflexivity|].
    exfalso. assert (0 < 2 ^ 2098) by (apply Z.pow_pos_nonneg; lia).
    cbn [ordZ cond_Zopp] in Hord. lia.
  - right. destruct sx; cbn [signed_as]; [reflexivity|].
    exfalso. assert (0 < 2 ^ 2098) by (apply Z.pow_pos_nonneg; lia).
    apply valid_finite_bounds in Vy as (Hey & Hmy & _).
    pose proof (finite_below_infinity my ey Hey Hmy).
    cbn [ordZ cond_Zopp] in Hord. destruct sy; cbn [cond_Zopp] in Hord; lia.
  - right. destruct sx; cbn [signed_as]; [reflexivity|].
    exfalso. cbn [ordZ cond_Zopp] in Hord.
    apply valid_finite_bounds in Vx as (Hex & _ & _).
    assert (0 < Zpos mx * 2 ^ (ex + 1074))
      by (apply Z.mul_pos_pos; [lia|apply Z.pow_pos_nonneg; lia]). lia.
  - pose proof (valid_finite_bounds _ _ _ Vx) as (Hex & _ & _).
    pose proof (valid_finite_bounds _ _ _ Vy) as (Hey & _ & _).
    set (ez := Z.min ex ey).
    pose proof (aligned_scaled sx mx ex ez ltac:(lia) ltac:(lia)) as Ax.
    pose proof (aligned_scaled sy my ey ez ltac:(lia) ltac:(lia)) as Ay.
    assert (HP : 0 < 2 ^ (ez + 1074)) by (apply Z.pow_pos_nonneg; lia).
    set (a := cond_Zopp sx (Zpos (fst (shl_align mx ex ez)))) in *.
    set (b := cond_Zopp sy (Zpos (fst (shl_align my ey ez)))) in *.
    destruct (binary_normalize_signed (a - b) ez) as [Hz | Hs].
    + rewrite <- Ax, <- Ay in Hord. nia.
    + left. exists false. exact Hz.
    + right. exact Hs.
Qed.

Open Scope float_scope.

Lemma SFeqb_refl x : is_nan_sf x = false -> SFeqb x x = true.
Proof.
  destruct x as [s | s | | s m e]; intros H; try discriminate H; unfold SFeqb; cbn [SFcompare].
  - reflexivity.
  - destruct s; reflexivity.
  - rewrite Z.compare_refl. change (Pos.compare_cont Eq m m) with (Pos.compare m m).
    rewrite Pos.compare_refl. destruct s; reflexivity.
Qed.

Lemma is_nan_spec x : is_nan x = is_nan_sf (Prim2SF x).
Proof.
  unfold is_nan. rewrite eqb_spec.
  destruct (is_nan_sf (Prim2SF x)) eqn:E.
  - destruct (Prim2SF x); try discriminate E. reflexivity.
  - rewrite SFeqb_refl by exact E. reflexivity.
Qed.

Lemma is_infinity_spec x :
  is_infinity x = match Prim2SF x with S754_infinity _ => true | _ => false end.
Proof.
  unfold is_infinity. rewrite eqb_spec, abs_spec.
  change (Prim2SF infinity) with (S754_infinity false).
  destruct (Prim2SF x) as [s | s | | s m e]; reflexivity.
Qed.

Lemma is_finite_spec x : is_finite x = negb (nonfinite_sf (Prim2SF x)).
Proof.
  unfold is_finite. rewrite is_nan_spec, is_infinity_spec.
  destruct (Prim2SF x); reflexivity.
Qed.

Lemma leb_ordZ a b :
  (a <=? b) = true ->
  is_nan a = false /\ is_nan b = false /\ (ordZ (Prim2SF a) <= ordZ (Prim2SF b))%Z.
Proof.
  rewrite leb_spec, !is_nan_spec. intros H.
  assert (Na : is_nan_sf (Prim2SF a) = false)
    by (destruct (Prim2SF a); [reflexivity..|discriminate H|reflexivity]).
  assert (Nb : is_nan_sf (Prim2SF b) = false)
    by (destruct (Prim2SF b); [reflexivity..| |reflexivity]; destruct (Prim2SF a); discriminate H).
  repeat split; try assumption.
  unfold SFleb in H.
  rewrite (SFcompare_ordZ _ _ (Prim2SF_valid a) (Prim2SF_valid b) Na Nb) in H.
  destruct (Z.compare_spec (ordZ (Prim2SF a)) (ordZ (Prim2SF b))); first [lia | discriminate H].
Qed.

Lemma ltb_ordZ a b :
  (a <? b) = true -> (ordZ (Prim2SF a) < ordZ (Prim2SF b))%Z.
Proof.
  rewrite ltb_spec. intros H.
  assert (Na : is_nan_sf (Prim2SF a) = false)
    by (destruct (Prim2SF a); [reflexivity..|discriminate H|reflexivity]).
  assert (Nb : is_nan_sf (Prim2SF b) = false)
    by (destruct (Prim2SF b); [reflexivity..| |reflexivity]; destruct (Prim2SF a); discriminate H).
  unfold SFltb in H.
  rewrite (SFcompare_ordZ _ _ (Prim2SF_valid a) (Prim2SF_valid b) Na Nb) in H.
  destruct (Z.compare_spec (ordZ (Prim2SF a)) (ordZ (Prim2SF b))); first [lia | discriminate H].
Qed.

(** No float lies in a band whose upper end is below its lower end. *)
Lemma empty_band lo hi s :
  (hi <? lo) = true -> (lo <=? s) && (s <=? hi) = false.
Proof.
  intros H. apply ltb_ordZ in H.
  destruct (lo <=? s) eqn:E1; [|reflexivity].
  destruct (s <=? hi) eqn:E2; [|reflexivity].
  apply leb_ordZ in E1 as (_ & _ & L1). apply leb_ordZ in E2 as (_ & _ & L2). lia.
Qed.

Lemma maximum_signed x :
  (exists s, Prim2SF x = S754_zero s) \/ signed_as true (Prim2SF x) ->
  (Np.maximum x 0 =? 0) = true.
Proof.
  intros H. unfold Np.maximum. rewrite ltb_spec, is_nan_spec.
  change (Prim2SF 0) with (S754_zero false).
  destruct H as [[s Hs] | Hs].
  - rewrite Hs. reflexivity.
  - destruct (Prim2SF x) as [s | s | | s m e] eqn:E; cbn in Hs; try contradiction;
      subst s; reflexivity.
Qed.

Lemma maximum_not_negative x : (Np.maximum x 0 <? 0) = false.
Proof.
  unfold Np.maximum. rewrite is_nan_spec.
  destruct (is_nan_sf (Prim2SF x)) eqn:N.
  - rewrite ltb_spec. destruct (Prim2SF x); try discriminate N. reflexivity.
  - destruct (0 <? x) eqn:E; [|reflexivity].
    rewrite ltb_spec in E |- *. change (Prim2SF 0) with (S754_zero false) in *.
    destruct (Prim2SF x) as [s | s | | s m e]; try reflexivity;
      destruct s; cbn in E |- *; congruence.
Qed.

Lemma clip_of_le f s :
  is_finite s = true -> (f <=? s) = true -> (Np.maximum (f - s) 0 =? 0) = true.
Proof.
  intros Hfin Hle. apply maximum_signed. rewrite sub_spec.
  rewrite is_finite_spec in Hfin. rewrite leb_spec in Hle.
  apply SFsub_le_signed; try apply Prim2SF_valid; try exact Hle.
  destruct (Prim2SF s); try exact I. discriminate Hfin.
Qed.

(** The specification's [max] and numpy's agree on every float. *)
Lemma max_spec_numpy x : Spec.max x 0 = Np.maximum x 0.
Proof. reflexivity. Qed.

Lemma div_zero_nonfinite x z :
  (z =? 0) = true -> is_finite (x / z) = false.
Proof.
  rewrite eqb_spec, is_finite_spec, div_spec. change (Prim2SF 0) with (S754_zero false).
  intros H. destruct (Prim2SF z) as [s | s | | s m e];
    try discriminate H; try (destruct s; discriminate H).
  destruct (Prim2SF x); reflexivity.
Qed.

Lemma nonfinite_div x y : is_finite x = false -> is_finite (x / y) = false.
Proof.
  rewrite !is_finite_spec, div_spec. intros H.
  destruct (Prim2SF x); try discriminate H; destruct (Prim2SF y); reflexivity.
Qed.

Lemma zero_div_hundred g : (g =? 0) = true -> (g / 100 =? 0) = true.
Proof.
  rewrite !eqb_spec, div_spec. change (Prim2SF 0) with (S754_zero false).
  set (h := Prim2SF 100). vm_compute in h. subst h.
  intros H. destruct (Prim2SF g) as [s | s | | s m e];
    try discriminate H; try (destruct s; discriminate H).
  reflexivity.
Qed.

End LineFacts.

(** * The leverage engine *)

Module EngineFacts.
Import Engine LineFacts.
Open Scope float_scope.

Lemma zip_with_map {A : Type} (f : float -> float -> float) (a b : A -> float) (xs : list A) :
  Np.zip_with f (map a xs) (map b xs) = map (fun x => f (a x) (b x)) xs.
Proof.
  induction xs as [ | x xs IH]; cbn [map Np.zip_with]; [reflexivity|].
  now rewrite IH.
Qed.

Lemma intrinsic_gains_rowwise calls stock_price gain_pct :
  intrinsic_gains (calculate_leverage_ratios_body calls stock_price gain_pct) =
  map (fun q => Spec.intrinsicGain stock_price gain_pct (strike q)) calls.
Proof.
  unfold calculate_leverage_ratios_body. cbn [intrinsic_gains].
  unfold Np.clip_min, Np.rsub. rewrite !map_map.
  apply map_ext. intros q. unfold Spec.intrinsicGain, Spec.targetPrice.
  symmetry. apply max_spec_numpy.
Qed.

Lemma premium_gains_rowwise calls stock_price gain_pct :
  premium_gains (calculate_leverage_ratios_body calls stock_price gain_pct) =
  map (fun q => Spec.premiumGain stock_price gain_pct (strike q) (ask q)) calls.
Proof.
  pose proof (intrinsic_gains_rowwise calls stock_price gain_pct) as H.
  unfold calculate_leverage_ratios_body in *. cbn [intrinsic_gains premium_gains] in *.
  rewrite H. unfold Np.sub.
  apply (zip_with_map PrimFloat.sub
           (fun q => Spec.intrinsicGain stock_price gain_pct (strike q)) ask).
Qed.

(** The engine's four arrays are the row-wise formulas of the
    specification, mapped over the frame. *)
Lemma engine_rowwise calls stock_price gain_pct :
  calculate_leverage_ratios calls stock_price gain_pct =
  Returns (map strike calls,
           map (fun q => Spec.leverageRatio stock_price (ask q)) calls,
           map (fun q => Spec.adjustedLeverageRatio stock_price gain_pct (strike q) (ask q)) calls,
           map ask calls).
Proof.
  pose proof (premium_gains_rowwise calls stock_price gain_pct) as H.
  unfold calculate_leverage_ratios, calculate_leverage_ratios_body in *.
  cbn [strikes premiums leverage_ratios adjusted_ratios premium_gains] in *.
  rewrite H. unfold Np.div.
  rewrite (zip_with_map PrimFloat.div
             (fun q => Spec.premiumGain stock_price gain_pct (strike q) (ask q)) ask).
  unfold Np.div_scalar, Np.rdiv. rewrite !map_map. reflexivity.
Qed.

(** C1: for a positive price, every row with a positive premium, under a
    target move other than zero, carries leverageRatio = price / premium,
    intrinsicGain = max(price * (1 + pct/100) - strike, 0), premiumGain =
    intrinsicGain - premium and adjustedLeverageRatio = (premiumGain /
    premium) / (pct / 100); on the scenario quotes with price 100 and move
    20, row 1 has leverage 100/12 and adjusted leverage 7.5, row 3 has
    adjusted leverage 45. *)
Theorem calculate_leverage_ratios_formulas :
  (forall calls stock_price gain_pct i q,
      (0 <? stock_price) = true ->
      (0 <? ask q) = true ->
      (gain_pct =? 0) = false ->
      nth_error calls i = Some q ->
      exists strikes leverage_ratios adjusted_ratios premiums,
        calculate_leverage_ratios calls stock_price gain_pct =
          Returns (strikes, leverage_ratios, adjusted_ratios, premiums) /\
        nth_error leverage_ratios i = Some (Spec.leverageRatio stock_price (ask q)) /\
        nth_error (intrinsic_gains (calculate_leverage_ratios_body calls stock_price gain_pct)) i =
          Some (Spec.intrinsicGain stock_price gain_pct (strike q)) /\
        nth_error (premium_gains (calculate_leverage_ratios_body calls stock_price gain_pct)) i =
          Some (Spec.premiumGain stock_price gain_pct (strike q) (ask q)) /\
        nth_error adjusted_ratios i =
          Some (Spec.adjustedLeverageRatio stock_price gain_pct (strike q) (ask q))) /\
  calculate_leverage_ratios Scenario.quotes 100 20 =
    Returns ([90; 100; 110], [100 / 12; 20; 100], [7.5; 15; 45], [12; 5; 1]).
Proof.
  split; [|reflexivity].
  intros calls stock_price gain_pct i q _ _ _ Hq.
  eexists _, _, _, _. split; [apply engine_rowwise|].
  rewrite intrinsic_gains_rowwise, premium_gains_rowwise.
  repeat split;
    (apply (map_nth_error (fun q => Spec.leverageRatio stock_price (ask q))) ||
     apply (map_nth_error (fun q => Spec.intrinsicGain stock_price gain_pct (strike q))) ||
     apply (map_nth_error (fun q => Spec.premiumGain stock_price gain_pct (strike q) (ask q))) ||
     apply (map_nth_error
              (fun q => Spec.adjustedLeverageRatio stock_price gain_pct (strike q) (ask q))));
    exact Hq.
Qed.

Lemma calculate_leverage_ratios_formulas_witness :
  exists strikes leverage_ratios adjusted_ratios premiums,
    calculate_leverage_ratios Scenario.quotes 100 20 =
      Returns (strikes, leverage_ratios, adjusted_ratios, premiums) /\
    nth_error leverage_ratios 0 = Some (Spec.leverageRatio 100 12) /\
    nth_error (intrinsic_gains (calculate_leverage_ratios_body Scenario.quotes 100 20)) 0 = Some (Spec.intrinsicGain 100 20 90) /\
    nth_error (premium_gains (calculate_leverage_ratios_body Scenario.quotes 100 20)) 0 = Some (Spec.premiumGain 100 20 90 12) /\
    nth_error adjusted_ratios 0 = Some (Spec.adjustedLeverageRatio 100 20 90 12).
Proof.
  apply (proj1 calculate_leverage_ratios_formulas Scenario.quotes 100 20 0%nat
           {| strike := 90; ask := 12 |}); reflexivity.
Defined.

(** C4: the four arrays have the length of the frame, and the strike at
    each index is the strike of the quote at that index. *)
Theorem calculate_leverage_ratios_shape calls stock_price gain_pct :
  exists strikes leverage_ratios adjusted_ratios premiums,
    calculate_leverage_ratios calls stock_price gain_pct =
      Returns (strikes, leverage_ratios, adjusted_ratios, premiums) /\
    length strikes = length calls /\
    length leverage_ratios = length calls /\
    length adjusted_ratios = length calls /\
    length premiums = length calls /\
    strikes = map strike calls /\
    (forall i, nth_error strikes i = option_map strike (nth_error calls i)).
Proof.
  eexists _, _, _, _. split; [apply engine_rowwise|].
  rewrite !length_map. repeat split. intros i. apply nth_error_map.
Qed.

(** C2, as claimed, fails: a quote with no ask puts the plain float
    [infinity] into both ratio arrays. *)
Lemma zero_premium_yields_infinity :
  calculate_leverage_ratios Scenario.unquoted 100 20 =
    Returns ([100], [infinity], [infinity], [0]) /\
  is_infinity infinity = true /\ is_finite infinity = false.
Proof. repeat split. Qed.

(** C2, amended: a quote whose ask is zero gets a non-finite binary64 value
    (an infinity or NaN) as its leverage ratio and as its adjusted leverage
    ratio, carried in the arrays as plain numbers; the call returns without
    raising, and every row is computed by the formulas. *)
Theorem zero_premium_nonfinite calls stock_price gain_pct i q :
  nth_error calls i = Some q ->
  (ask q =? 0) = true ->
  exists strikes leverage_ratios adjusted_ratios premiums,
    calculate_leverage_ratios calls stock_price gain_pct =
      Returns (strikes, leverage_ratios, adjusted_ratios, premiums) /\
    (exists r, nth_error leverage_ratios i = Some r /\ is_finite r = false) /\
    (exists r, nth_error adjusted_ratios i = Some r /\ is_finite r = false) /\
    (forall j q',
        nth_error calls j = Some q' ->
        nth_error strikes j = Some (strike q') /\
        nth_error leverage_ratios j = Some (Spec.leverageRatio stock_price (ask q')) /\
        nth_error adjusted_ratios j =
          Some (Spec.adjustedLeverageRatio stock_price gain_pct (strike q') (ask q')) /\
        nth_error premiums j = Some (ask q')).
Proof.
  intros Hq Hz.
  eexists _, _, _, _. split; [apply engine_rowwise|].
  split; [|split].
  - eexists. split.
    + apply (map_nth_error (fun q => Spec.leverageRatio stock_price (ask q))), Hq.
    + apply div_zero_nonfinite, Hz.
  - eexists. split.
    + apply (map_nth_error
               (fun q => Spec.adjustedLeverageRatio stock_price gain_pct (strike q) (ask q))), Hq.
    + apply nonfinite_div, div_zero_nonfinite, Hz.
  - intros j q' Hq'. repeat split.
    + apply map_nth_error, Hq'.
    + apply (map_nth_error (fun q => Spec.leverageRatio stock_price (ask q))), Hq'.
    + apply (map_nth_error
               (fun q => Spec.adjustedLeverageRatio stock_price gain_pct (strike q) (ask q))), Hq'.
    + apply map_nth_error, Hq'.
Qed.

Lemma zero_premium_nonfinite_witness :
  exists strikes leverage_ratios adjusted_ratios premiums,
    calculate_leverage_ratios
      ({| strike := 100; ask := 0 |} :: Scenario.quotes) 100 20 =
      Returns (strikes, leverage_ratios, adjusted_ratios, premiums) /\
    (exists r, nth_error leverage_ratios 0 = Some r /\ is_finite r = false) /\
    (exists r, nth_error adjusted_ratios 0 = Some r /\ is_finite r = false) /\
    (forall j q',
        nth_error ({| strike := 100; ask := 0 |} :: Scenario.quotes) j = Some q' ->
        nth_error strikes j = Some (strike q') /\
        nth_error leverage_ratios j = Some (Spec.leverageRatio 100 (ask q')) /\
        nth_error adjusted_ratios j =
          Some (Spec.adjustedLeverageRatio 100 20 (strike q') (ask q')) /\
        nth_error premiums j = Some (ask q')).
Proof.
  apply (zero_premium_nonfinite ({| strike := 100; ask := 0 |} :: Scenario.quotes)
           100 20 0%nat {| strike := 100; ask := 0 |}); reflexivity.
Defined.

(** C3, as claimed, fails: with a target move of zero the adjusted ratio of
    the first scenario quote is the plain float [neg_infinity]. *)
Lemma zero_target_yields_infinity :
  calculate_leverage_ratios [ {| strike := 90; ask := 12 |} ] 100 0 =
    Returns ([90], [100 / 12], [neg_infinity], [12]) /\
  is_infinity neg_infinity = true /\ is_finite neg_infinity = false.
Proof. repeat split. Qed.

(** C3, amended: for a non-empty frame and a positive price, a target move
    of zero makes the adjusted leverage ratio of every row a non-finite
    binary64 value (an infinity or NaN), the result of the unguarded
    division by [0 / 100]; the call returns without raising. *)
Theorem zero_target_nonfinite calls stock_price gain_pct :
  calls <> [] ->
  (0 <? stock_price) = true ->
  (gain_pct =? 0) = true ->
  exists strikes leverage_ratios adjusted_ratios premiums,
    calculate_leverage_ratios calls stock_price gain_pct =
      Returns (strikes, leverage_ratios, adjusted_ratios, premiums) /\
    length adjusted_ratios = length calls /\
    Forall (fun r => is_finite r = false) adjusted_ratios.
Proof.
  intros _ _ Hz.
  eexists _, _, _, _. split; [apply engine_rowwise|].
  split; [apply length_map|].
  apply Forall_map, Forall_forall. intros q _.
  apply div_zero_nonfinite, zero_div_hundred, Hz.
Qed.

Lemma zero_target_nonfinite_witness :
  exists strikes leverage_ratios adjusted_ratios premiums,
    calculate_leverage_ratios Scenario.quotes 100 0 =
      Returns (strikes, leverage_ratios, adjusted_ratios, premiums) /\
    length adjusted_ratios = length Scenario.quotes /\
    Forall (fun r => is_finite r = false) adjusted_ratios.
Proof.
  apply (zero_target_nonfinite Scenario.quotes 100 0);
    [discriminate | reflexivity | reflexivity].
Defined.

(** C7, as claimed, fails: with the price -1 the call returns its four
    arrays and raises nothing. *)
Lemma negative_price_returns :
  (-1 <=? 0) = true /\
  calculate_leverage_ratios [ {| strike := 90; ask := 12 |} ] (-1) 20 =
    Returns ([90], [-1 / 12], [-5], [12]) /\
  forall e, calculate_leverage_ratios [ {| strike := 90; ask := 12 |} ] (-1) 20 <> Raises e.
Proof. repeat split. intros e H. discriminate H. Qed.

(** C7, amended: the engine does not validate the price; for a price that
    is not positive it returns, as for any other, the four arrays computed
    by the formulas, and raises nothing. *)
Theorem nonpositive_price_computes calls stock_price gain_pct :
  (stock_price <=? 0) = true ->
  calculate_leverage_ratios calls stock_price gain_pct =
    Returns (map strike calls,
             map (fun q => Spec.leverageRatio stock_price (ask q)) calls,
             map (fun q => Spec.adjustedLeverageRatio stock_price gain_pct (strike q) (ask q))
                 calls,
             map ask calls) /\
  forall e, calculate_leverage_ratios calls stock_price gain_pct <> Raises e.
Proof.
  intros _. split; [apply engine_rowwise|].
  intros e. rewrite engine_rowwise. discriminate.
Qed.

Lemma nonpositive_price_computes_witness :
  calculate_leverage_ratios Scenario.quotes 0 20 =
    Returns (map strike Scenario.quotes,
             map (fun q => Spec.leverageRatio 0 (ask q)) Scenario.quotes,
             map (fun q => Spec.adjustedLeverageRatio 0 20 (strike q) (ask q)) Scenario.quotes,
             map ask Scenario.quotes) /\
  forall e, calculate_leverage_ratios Scenario.quotes 0 20 <> Raises e.
Proof.
  apply (nonpositive_price_computes Scenario.quotes 0 20). reflexivity.
Defined.

(** C9: the intrinsic gain of a row is never negative, whatever the target
    move; and it is zero for every quote whose (finite) strike is at or
    above the target price [stock_price * (1 + gain_pct / 100)]. *)
Theorem intrinsic_gain_clipped calls stock_price gain_pct i q :
  nth_error calls i = Some q ->
  exists g,
    nth_error (intrinsic_gains (calculate_leverage_ratios_body calls stock_price gain_pct)) i
      = Some g /\
    (g <? 0) = false /\
    (is_finite (strike q) = true ->
     (future_price (calculate_leverage_ratios_body calls stock_price gain_pct) <=? strike q)
       = true ->
     (g =? 0) = true).
Proof.
  intros Hq. unfold calculate_leverage_ratios_body. cbn [intrinsic_gains future_price].
  set (target := stock_price * (1 + gain_pct / 100)).
  exists (Np.maximum (target - strike q) 0).
  split; [|split].
  - unfold Np.clip_min, Np.rsub. rewrite !map_map.
    apply (map_nth_error (fun q => Np.maximum (target - strike q) 0)), Hq.
  - apply maximum_not_negative.
  - intros Hfin Hle. apply clip_of_le; assumption.
Qed.

Lemma intrinsic_gain_clipped_witness :
  exists g,
    nth_error (intrinsic_gains (calculate_leverage_ratios_body Scenario.quotes 100 (-20))) 0
      = Some g /\
    (g <? 0) = false /\ (g =? 0) = true.
Proof.
  destruct (intrinsic_gain_clipped Scenario.quotes 100 (-20) 0%nat
              {| strike := 90; ask := 12 |} eq_refl) as (g & Hg & Hneg & Hzero).
  exists g. split; [exact Hg|]. split; [exact Hneg|].
  apply Hzero; reflexivity.
Defined.

End EngineFacts.

(** * The strike-range filter *)

Module FilterFacts.
Import Engine LineFacts.
Open Scope float_scope.

Lemma mask_and_map {A : Type} (f g : A -> bool) (xs : list A) :
  Np.mask_and (map f xs) (map g xs) = map (fun x => f x && g x) xs.
Proof.
  induction xs as [ | x xs IH]; cbn [map Np.mask_and]; [reflexivity|].
  now rewrite IH.
Qed.

(** The mask is the band's membership test, strike by strike. *)
Lemma strike_mask_map strikes stock_price min_range max_range :
  strike_mask strikes (Band.minStrike stock_price min_range)
              (Band.maxStrike stock_price max_range) =
  map (Band.retained stock_price min_range max_range) strikes.
Proof.
  unfold strike_mask, Np.ge_scalar, Np.le_scalar.
  apply (mask_and_map (fun x => Band.minStrike stock_price min_range <=? x)
                      (fun x => x <=? Band.maxStrike stock_price max_range)).
Qed.

Lemma getitem_mask_returns xs mask :
  length xs = length mask -> Np.getitem_mask xs mask = Returns (Np.select xs mask).
Proof.
  intros H. unfold Np.getitem_mask. rewrite H, Nat.eqb_refl. reflexivity.
Qed.

Lemma select_length xs mask :
  length xs = length mask ->
  length (Np.select xs mask) = length (filter (fun b => b) mask).
Proof.
  revert mask. induction xs as [ | x xs IH]; intros [ | b mask] H; try discriminate H;
    cbn [Np.select filter]; [reflexivity|].
  injection H as H. destruct b; cbn [length]; rewrite (IH _ H); reflexivity.
Qed.

Lemma select_rows (f : float -> bool) :
  forall ss lev adj prem,
    length lev = length ss -> length adj = length ss ->
    length prem = length ss ->
    rows (Np.select ss (map f ss)) (Np.select lev (map f ss))
         (Np.select adj (map f ss)) (Np.select prem (map f ss)) =
    filter (fun r => f (row_strike r)) (rows ss lev adj prem).
Proof.
  induction ss as [ | s ss IH]; intros [ | l lev] [ | a adj] [ | p prem] Hl Ha Hp;
    try discriminate; [reflexivity|].
  injection Hl as Hl. injection Ha as Ha. injection Hp as Hp.
  cbn [map Np.select rows filter row_strike].
  destruct (f s); cbn [rows]; rewrite (IH _ _ _ Hl Ha Hp); reflexivity.
Qed.

Lemma select_none (f : float -> bool) ss :
  (forall s, f s = false) ->
  forall xs, Np.select xs (map f ss) = [].
Proof.
  intros Hf. induction ss as [ | s ss IH]; intros [ | x xs];
    cbn [map Np.select]; try reflexivity.
  rewrite Hf. apply IH.
Qed.

Lemma subseq_filter {A : Type} (f : A -> bool) (xs : list A) : subseq (filter f xs) xs.
Proof.
  induction xs as [ | x xs IH]; cbn [filter]; [constructor|].
  destruct (f x); constructor; exact IH.
Qed.

Lemma rows_nth_error :
  forall ss lev adj prem i s l a p,
    nth_error (rows ss lev adj prem) i = Some (s, l, a, p) ->
    nth_error ss i = Some s /\ nth_error lev i = Some l /\
    nth_error adj i = Some a /\ nth_error prem i = Some p.
Proof.
  induction ss as [ | s0 ss IH]; intros [ | l0 lev] [ | a0 adj] [ | p0 prem] i s l a p H;
    try (destruct i; discriminate H).
  destruct i as [ | i]; cbn [rows nth_error] in H |- *.
  - injection H as -> -> -> ->. repeat split.
  - apply IH, H.
Qed.

Lemma rows_length :
  forall ss lev adj prem,
    length lev = length ss -> length adj = length ss ->
    length prem = length ss ->
    length (rows ss lev adj prem) = length ss.
Proof.
  induction ss as [ | s ss IH]; intros [ | l lev] [ | a adj] [ | p prem] Hl Ha Hp;
    try discriminate; [reflexivity|].
  injection Hl as Hl. injection Ha as Ha. injection Hp as Hp.
  cbn [rows length]. now rewrite (IH _ _ _ Hl Ha Hp).
Qed.

(** What the filter returns on four parallel arrays. *)
Lemma filter_selects strikes lev adj prem stock_price min_range max_range :
  length lev = length strikes -> length adj = length strikes ->
  length prem = length strikes ->
  filter_by_strike_range (strikes, lev, adj, prem) stock_price min_range max_range =
  Returns (Np.select strikes (strike_mask strikes (Band.minStrike stock_price min_range)
                     (Band.maxStrike stock_price max_range)),
           Np.select lev (strike_mask strikes (Band.minStrike stock_price min_range)
                     (Band.maxStrike stock_price max_range)),
           Np.select adj (strike_mask strikes (Band.minStrike stock_price min_range)
                     (Band.maxStrike stock_price max_range)),
           Np.select prem (strike_mask strikes (Band.minStrike stock_price min_range)
                     (Band.maxStrike stock_price max_range))).
Proof.
  intros Hl Ha Hp. unfold filter_by_strike_range. cbv zeta.
  fold (Band.minStrike stock_price min_range) (Band.maxStrike stock_price max_range).
  assert (Hm : length (strike_mask strikes (Band.minStrike stock_price min_range)
                     (Band.maxStrike stock_price max_range)) = length strikes)
    by (rewrite strike_mask_map; apply length_map).
  rewrite !getitem_mask_returns by congruence. reflexivity.
Qed.

(** C8, as claimed, fails: with lowPct the float next above 10 and highPct
    10 the two ends of the band round to the same strike, and a row at that
    strike is retained although lowPct > highPct. *)
Lemma inverted_band_keeps_row :
  let result := ([Scenario.strike_110], [100 / 3],
                 [Spec.adjustedLeverageRatio 100 20 Scenario.strike_110 3], [3]) in
  (10 <? Scenario.just_above_ten) = true /\
  (0 <? 100) = true /\
  calculate_leverage_ratios [ {| strike := Scenario.strike_110; ask := 3 |} ] 100 20 =
    Returns result /\
  filter_by_strike_range result 100 Scenario.just_above_ten 10 = Returns result.
Proof. repeat split. Qed.

(** With whole percentages too: at the least positive price the two ends
    of the band 10% above .. 10% below both round to the price itself, and a
    row at that strike is retained. *)
Example inverted_band_whole_percents :
  (-10 <? 10) = true /\
  (0 <? 0x1p-1074) = true /\
  filter_by_strike_range ([0x1p-1074], [1], [0], [0x1p-1074]) 0x1p-1074 10 (-10) =
    Returns ([0x1p-1074], [1], [0], [0x1p-1074]).
Proof. repeat split. Qed.

(** C8, amended: on four parallel arrays and a positive price the filter
    returns, without raising, exactly the rows whose strike s satisfies
    minStrike <= s <= maxStrike (both ends included), in their order, a
    sub-sequence of the input; and the result is empty whenever the computed
    maxStrike is below the computed minStrike. *)
Theorem filter_by_strike_range_retains strikes lev adj prem stock_price min_range max_range :
  (0 <? stock_price) = true ->
  length lev = length strikes -> length adj = length strikes ->
  length prem = length strikes ->
  exists fs fl fa fp,
    filter_by_strike_range (strikes, lev, adj, prem) stock_price min_range max_range =
      Returns (fs, fl, fa, fp) /\
    length fl = length fs /\ length fa = length fs /\ length fp = length fs /\
    rows fs fl fa fp =
      filter (fun r => Band.retained stock_price min_range max_range (row_strike r))
             (rows strikes lev adj prem) /\
    subseq (rows fs fl fa fp) (rows strikes lev adj prem) /\
    ((Band.maxStrike stock_price max_range <? Band.minStrike stock_price min_range) = true ->
     fs = [] /\ fl = [] /\ fa = [] /\ fp = []).
Proof.
  intros _ Hl Ha Hp.
  eexists _, _, _, _. split; [apply filter_selects; assumption|].
  assert (Hm : length (strike_mask strikes (Band.minStrike stock_price min_range)
                     (Band.maxStrike stock_price max_range)) = length strikes)
    by (rewrite strike_mask_map; apply length_map).
  assert (Hrows :
    rows (Np.select strikes (strike_mask strikes (Band.minStrike stock_price min_range)
                     (Band.maxStrike stock_price max_range)))
         (Np.select lev (strike_mask strikes (Band.minStrike stock_price min_range)
                     (Band.maxStrike stock_price max_range)))
         (Np.select adj (strike_mask strikes (Band.minStrike stock_price min_range)
                     (Band.maxStrike stock_price max_range)))
         (Np.select prem (strike_mask strikes (Band.minStrike stock_price min_range)
                     (Band.maxStrike stock_price max_range))) =
    filter (fun r => Band.retained stock_price min_range max_range (row_strike r))
           (rows strikes lev adj prem)).
  { rewrite strike_mask_map. apply select_rows; assumption. }
  repeat split.
  - rewrite !select_length by congruence. reflexivity.
  - rewrite !select_length by congruence. reflexivity.
  - rewrite !select_length by congruence. reflexivity.
  - exact Hrows.
  - rewrite Hrows. apply subseq_filter.
  - rewrite strike_mask_map. apply select_none. intros s. apply empty_band, H.
  - rewrite strike_mask_map. apply select_none. intros s. apply empty_band, H.
  - rewrite strike_mask_map. apply select_none. intros s. apply empty_band, H.
  - rewrite strike_mask_map. apply select_none. intros s. apply empty_band, H.
Qed.

Lemma filter_by_strike_range_retains_witness :
  exists fs fl fa fp,
    filter_by_strike_range ([90; 100; 110], [100 / 12; 20; 100], [7.5; 15; 45], [12; 5; 1])
                           100 10 (-10) =
      Returns (fs, fl, fa, fp) /\
    length fl = length fs /\ length fa = length fs /\ length fp = length fs /\
    rows fs fl fa fp =
      filter (fun r => Band.retained 100 10 (-10) (row_strike r))
             (rows [90; 100; 110] [100 / 12; 20; 100] [7.5; 15; 45] [12; 5; 1]) /\
    subseq (rows fs fl fa fp)
           (rows [90; 100; 110] [100 / 12; 20; 100] [7.5; 15; 45] [12; 5; 1]) /\
    (fs = [] /\ fl = [] /\ fa = [] /\ fp = []).
Proof.
  destruct (filter_by_strike_range_retains
              [90; 100; 110] [100 / 12; 20; 100] [7.5; 15; 45] [12; 5; 1] 100 10 (-10)
              eq_refl eq_refl eq_refl eq_refl)
    as (fs & fl & fa & fp & Hret & Hl & Ha & Hp & Hrows & Hsub & Hempty).
  exists fs, fl, fa, fp.
  repeat (split; [assumption|]). apply Hempty. reflexivity.
Defined.

(** A band from 5% below to 10% above the price 100 keeps the strikes 100
    and 110, in their order. *)
Example filter_keeps_band :
  filter_by_strike_range ([90; 100; 110], [100 / 12; 20; 100], [7.5; 15; 45], [12; 5; 1])
                         100 (-5) 10 =
    Returns ([100; 110], [20; 100], [15; 45], [5; 1]).
Proof. reflexivity. Qed.

(** The inverted band of the specification's scenario, lowPct = 10 and
    highPct = -10: at price 100 nothing is kept. *)
Example filter_inverted_band :
  filter_by_strike_range ([90; 100; 110], [100 / 12; 20; 100], [7.5; 15; 45], [12; 5; 1])
                         100 10 (-10) =
    Returns ([], [], [], []).
Proof. reflexivity. Qed.

(** C10: in [main] the four filtered arrays come out with one length and
    index-aligned: the one mask computed from the strikes selects the same
    positions of the engine's four arrays, so entry j of each filtered array
    comes from one and the same engine row, whose strike lies in the band. *)
Theorem main_filtered_aligned calls stock_price target_percentage min_range max_range :
  exists strikes lev adj prem fs fl fa fp,
    calculate_leverage_ratios calls stock_price target_percentage =
      Returns (strikes, lev, adj, prem) /\
    main calls stock_price target_percentage min_range max_range =
      Returns (fs, fl, fa, fp) /\
    fs = Np.select strikes (strike_mask strikes (Band.minStrike stock_price min_range)
                     (Band.maxStrike stock_price max_range)) /\
    fl = Np.select lev (strike_mask strikes (Band.minStrike stock_price min_range)
                     (Band.maxStrike stock_price max_range)) /\
    fa = Np.select adj (strike_mask strikes (Band.minStrike stock_price min_range)
                     (Band.maxStrike stock_price max_range)) /\
    fp = Np.select prem (strike_mask strikes (Band.minStrike stock_price min_range)
                     (Band.maxStrike stock_price max_range)) /\
    length fl = length fs /\ length fa = length fs /\ length fp = length fs /\
    rows fs fl fa fp =
      filter (fun r => Band.retained stock_price min_range max_range (row_strike r))
             (rows strikes lev adj prem) /\
    (forall j, (j < length fs)%nat ->
       exists i s l a p,
         nth_error strikes i = Some s /\ nth_error lev i = Some l /\
         nth_error adj i = Some a /\ nth_error prem i = Some p /\
         nth_error fs j = Some s /\ nth_error fl j = Some l /\
         nth_error fa j = Some a /\ nth_error fp j = Some p /\
         Band.retained stock_price min_range max_range s = true).
Proof.
  set (strikes := map strike calls).
  set (lev := map (fun q => Spec.leverageRatio stock_price (ask q)) calls).
  set (adj := map (fun q => Spec.adjustedLeverageRatio stock_price target_percentage
                              (strike q) (ask q)) calls).
  set (prem := map ask calls).
  assert (Hl : length lev = length strikes) by (unfold lev, strikes; now rewrite !length_map).
  assert (Ha : length adj = length strikes) by (unfold adj, strikes; now rewrite !length_map).
  assert (Hp : length prem = length strikes) by (unfold prem, strikes; now rewrite !length_map).
  assert (Hm : length (strike_mask strikes (Band.minStrike stock_price min_range)
                     (Band.maxStrike stock_price max_range)) = length strikes)
    by (rewrite strike_mask_map; apply length_map).
  set (mask := strike_mask strikes (Band.minStrike stock_price min_range)
                     (Band.maxStrike stock_price max_range)) in *.
  assert (Hrows :
    rows (Np.select strikes mask) (Np.select lev mask) (Np.select adj mask)
         (Np.select prem mask) =
    filter (fun r => Band.retained stock_price min_range max_range (row_strike r))
           (rows strikes lev adj prem)).
  { unfold mask. rewrite strike_mask_map. apply select_rows; assumption. }
  assert (Hlen : length (Np.select lev mask) = length (Np.select strikes mask) /\
                 length (Np.select adj mask) = length (Np.select strikes mask) /\
                 length (Np.select prem mask) = length (Np.select strikes mask)).
  { rewrite !select_length by congruence. repeat split. }
  destruct Hlen as (Hl' & Ha' & Hp').
  exists strikes, lev, adj, prem,
    (Np.select strikes mask), (Np.select lev mask), (Np.select adj mask), (Np.select prem mask).
  split; [apply EngineFacts.engine_rowwise|].
  split.
  { unfold main. rewrite EngineFacts.engine_rowwise. cbn [bind].
    apply filter_selects; assumption. }
  do 7 (split; [reflexivity || assumption|]).
  split; [exact Hrows|].
  intros j Hj.
  destruct (nth_error (rows (Np.select strikes mask) (Np.select lev mask)
                            (Np.select adj mask) (Np.select prem mask)) j)
    as [[[[s l] a] p] | ] eqn:Ej.
  - pose proof (rows_nth_error _ _ _ _ _ _ _ _ _ Ej) as (Fs & Fl & Fa & Fp).
    apply nth_error_In in Ej. rewrite Hrows in Ej.
    apply filter_In in Ej as [Hin Hband].
    apply In_nth_error in Hin as [i Hi].
    apply rows_nth_error in Hi as (Gs & Gl & Ga & Gp).
    exists i, s, l, a, p. repeat split; assumption.
  - exfalso. apply nth_error_None in Ej.
    rewrite rows_length in Ej by assumption. lia.
Qed.

End FilterFacts.

(** * The default expiration *)

Module ExpiryFacts.
Import Expiry.
Open Scope Z_scope.

Section MinScan.
Context {A : Type} (key : A -> outcome Z).

(** The scan returns either the incumbent, no later item having a smaller
    key, or a later item of strictly smaller key than the incumbent and
    than every item before it, and of no larger key than any item after. *)
Lemma min_scan_returns rest :
  forall best best_key,
    Forall (fun x => exists k, key x = Returns k) rest ->
    exists r,
      min_scan key best best_key rest = Returns r /\
      ((r = best /\ forall y ky, In y rest -> key y = Returns ky -> best_key <= ky) \/
       (exists pre post kr,
           rest = pre ++ r :: post /\ key r = Returns kr /\ kr < best_key /\
           (forall y ky, In y pre -> key y = Returns ky -> kr < ky) /\
           (forall y ky, In y post -> key y = Returns ky -> kr <= ky))).
Proof.
  induction rest as [ | x rest IH]; intros best best_key Hk.
  - exists best. split; [reflexivity|]. left. split; [reflexivity|].
    intros y ky [].
  - inversion Hk as [ | ? ? [k Hx] Hk']; subst.
    cbn [min_scan]. rewrite Hx. cbn [bind].
    destruct (k <? best_key) eqn:E.
    + apply Z.ltb_lt in E.
      destruct (IH x k Hk') as (r & Hr & [[-> Hall] | (pre & post & kr & Hs & Hkr & Hlt & Hpre & Hpost)]).
      * exists x. split; [exact Hr|]. right. exists [], rest, k.
        repeat split; try assumption. intros y ky [].
      * exists r. split; [exact Hr|]. right. exists (x :: pre), post, kr.
        repeat split; try assumption; try lia.
        -- now rewrite Hs.
        -- intros y ky [<- | Hy] Hy'; [|eauto].
           rewrite Hx in Hy'. injection Hy' as <-. exact Hlt.
    + apply Z.ltb_ge in E.
      destruct (IH best best_key Hk') as (r & Hr & [[-> Hall] | (pre & post & kr & Hs & Hkr & Hlt & Hpre & Hpost)]).
      * exists best. split; [exact Hr|]. left. split; [reflexivity|].
        intros y ky [<- | Hy] Hy'; [|eauto].
        rewrite Hx in Hy'. injection Hy' as <-. exact E.
      * exists r. split; [exact Hr|]. right. exists (x :: pre), post, kr.
        repeat split; try assumption.
        -- now rewrite Hs.
        -- intros y ky [<- | Hy] Hy'; [|eauto].
           rewrite Hx in Hy'. injection Hy' as <-. lia.
Qed.

(** [min] over a non-empty keyed list: the first item of least key. *)
Lemma py_min_first_least xs :
  xs <> [] -> Forall (fun x => exists k, key x = Returns k) xs ->
  exists r kr pre post,
    py_min xs key = Returns r /\
    xs = pre ++ r :: post /\ key r = Returns kr /\
    (forall y ky, In y pre -> key y = Returns ky -> kr < ky) /\
    (forall y ky, In y post -> key y = Returns ky -> kr <= ky).
Proof.
  destruct xs as [ | x rest]; [congruence|]. intros _ Hk.
  inversion Hk as [ | ? ? [k Hx] Hk']; subst.
  cbn [py_min]. rewrite Hx. cbn [bind].
  destruct (min_scan_returns rest x k Hk')
    as (r & Hr & [[-> Hall] | (pre & post & kr & Hs & Hkr & Hlt & Hpre & Hpost)]).
  - exists x, k, [], rest. repeat split; try assumption. intros y ky [].
  - exists r, kr, (x :: pre), post. repeat split; try assumption.
    + now rewrite Hs.
    + intros y ky [<- | Hy] Hy'; [|eauto].
      rewrite Hx in Hy'. injection Hy' as <-. exact Hlt.
Qed.


End MinScan.

Lemma distance_returns one_year_later x k :
  distance one_year_later x = Returns k <->
  exists d, strptime_Ymd x = Returns d /\ k = Z.abs (d - one_year_later).
Proof.
  unfold distance. destruct (strptime_Ymd x) as [d | e]; cbn [bind]; split.
  - intros H. injection H as <-. now exists d.
  - intros (d' & H & ->). now injection H as ->.
  - discriminate.
  - intros (d' & H & _). discriminate H.
Qed.



(** C5: on a non-empty sequence of expiration dates the selector returns an
    element of the sequence whose distance to [today + 365 days] is least,
    and, among the elements at that distance, the one that comes first. *)
Theorem get_default_expiration_nearest today expirations :
  expirations <> [] ->
  Forall (fun x => exists d, strptime_Ymd x = Returns d) expirations ->
  exists r dr pre post,
    get_default_expiration today expirations = Returns r /\
    expirations = pre ++ r :: post /\
    In r expirations /\
    strptime_Ymd r = Returns dr /\
    (forall y dy, In y expirations -> strptime_Ymd y = Returns dy ->
       Z.abs (dr - (today + timedelta_days 365)) <= Z.abs (dy - (today + timedelta_days 365))) /\
    (forall y dy, In y pre -> strptime_Ymd y = Returns dy ->
       Z.abs (dr - (today + timedelta_days 365)) < Z.abs (dy - (today + timedelta_days 365))).
Proof.
  intros Hne Hwf. set (target := today + timedelta_days 365).
  assert (Hk : Forall (fun x => exists k, distance target x = Returns k) expirations).
  { eapply Forall_impl; [|exact Hwf]. cbn beta.
    intros x [d Hd]. exists (Z.abs (d - target)). apply distance_returns. eauto. }
  destruct (py_min_first_least (distance target) expirations Hne Hk)
    as (r & kr & pre & post & Hr & Hs & Hkr & Hpre & Hpost).
  apply distance_returns in Hkr as (dr & Hdr & ->).
  exists r, dr, pre, post.
  assert (Hin : In r expirations) by (rewrite Hs; apply in_elt).
  repeat split; try assumption.
  - intros y dy Hy Hdy. rewrite Hs in Hy. apply in_app_or in Hy as [Hy | [<- | Hy]].
    + apply Z.lt_le_incl, (Hpre y); [exact Hy|]. apply distance_returns. eauto.
    + rewrite Hdr in Hdy. injection Hdy as <-. lia.
    + apply (Hpost y); [exact Hy|]. apply distance_returns. eauto.
  - intros y dy Hy Hdy. apply (Hpre y); [exact Hy|]. apply distance_returns. eauto.
Qed.

Lemma get_default_expiration_nearest_witness :
  exists r dr pre post,
    get_default_expiration Scenario.reference_date ["2025-01-01"; "2026-01-05"]%string =
      Returns r /\
    ["2025-01-01"; "2026-01-05"]%string = pre ++ r :: post /\
    In r ["2025-01-01"; "2026-01-05"]%string /\
    strptime_Ymd r = Returns dr /\
    (forall y dy, In y ["2025-01-01"; "2026-01-05"]%string -> strptime_Ymd y = Returns dy ->
       Z.abs (dr - (Scenario.reference_date + timedelta_days 365))
       <= Z.abs (dy - (Scenario.reference_date + timedelta_days 365))) /\
    (forall y dy, In y pre -> strptime_Ymd y = Returns dy ->
       Z.abs (dr - (Scenario.reference_date + timedelta_days 365))
       < Z.abs (dy - (Scenario.reference_date + timedelta_days 365))).
Proof.
  apply (get_default_expiration_nearest Scenario.reference_date
           ["2025-01-01"; "2026-01-05"]%string).
  - discriminate.
  - repeat constructor; eexists; vm_compute; reflexivity.
Defined.

(** The scenario of the specification: from 2025-01-10 the target is
    2026-01-10, and 2026-01-05 is the nearer date. *)
Example default_expiration_scenario :
  get_default_expiration Scenario.reference_date ["2025-01-01"; "2026-01-05"]%string =
    Returns "2026-01-05"%string.
Proof. reflexivity. Qed.

(** Two dates one day either side of the target: the one listed first wins. *)
Example default_expiration_tie :
  get_default_expiration Scenario.reference_date ["2026-01-09"; "2026-01-11"]%string =
    Returns "2026-01-09"%string /\
  get_default_expiration Scenario.reference_date ["2026-01-11"; "2026-01-09"]%string =
    Returns "2026-01-11"%string.
Proof. split; reflexivity. Qed.

(** A string that is no date makes the scan fail with the parser's error. *)
Example default_expiration_malformed :
  get_default_expiration Scenario.reference_date ["2026-01-11"; "2026-02-30"]%string =
    Raises (ValueError "day is out of range for month").
Proof. reflexivity. Qed.




End ExpiryFacts.

(** * The ticker symbol *)

Module SymbolFacts.
Import Symbol.

Ltac by_cases_on_ascii c :=
  destruct c as [[ | ] [ | ] [ | ] [ | ] [ | ] [ | ] [ | ] [ | ]];
  vm_compute; intuition congruence.

Lemma upper_char_letter c : is_letter (upper_char c) = is_letter c.
Proof. by_cases_on_ascii c. Qed.

Lemma upper_char_upper c : is_letter c = true -> is_upper (upper_char c) = true.
Proof. by_cases_on_ascii c. Qed.

Lemma upper_char_fixed c : is_upper c = true -> upper_char c = c.
Proof. by_cases_on_ascii c. Qed.

Lemma upper_is_letter c : is_upper c = true -> is_letter c = true.
Proof. unfold is_letter. intros ->. reflexivity. Qed.

Lemma chars_append a b : chars (a ++ b)%string = chars a ++ chars b.
Proof.
  unfold chars. induction a as [ | c a IH]; cbn; [reflexivity|]. now rewrite IH.
Qed.

Lemma chars_inj a b : chars a = chars b -> a = b.
Proof.
  unfold chars. intros H.
  rewrite <- (string_of_list_ascii_of_string a), <- (string_of_list_ascii_of_string b).
  now rewrite H.
Qed.

Lemma chars_upper s : chars (upper s) = map upper_char (chars s).
Proof.
  unfold chars. induction s as [ | c s IH]; cbn; [reflexivity|]. now rewrite IH.
Qed.

(** Joining the matches gives back the letters, in their order. *)
Lemma chars_join_scan s :
  forall run,
    chars (join (findall_scan run s)) = rev run ++ filter is_letter (chars s).
Proof.
  induction s as [ | c s IH]; intros run.
  - destruct run as [ | r run]; cbn [findall_scan join fold_right].
    + reflexivity.
    + rewrite chars_append. unfold chars at 1.
      rewrite list_ascii_of_string_of_list_ascii. cbn. reflexivity.
  - cbn [findall_scan]. change (chars (String c s)) with (c :: chars s).
    cbn [filter]. destruct (is_letter c).
    + rewrite IH. cbn [rev]. rewrite <- app_assoc. reflexivity.
    + destruct run as [ | r run].
      * rewrite IH. reflexivity.
      * cbn [join fold_right]. rewrite chars_append. unfold chars at 1.
        rewrite list_ascii_of_string_of_list_ascii.
        change (fold_right String.append EmptyString (findall_scan [] s))
          with (join (findall_scan [] s)).
        rewrite IH. reflexivity.
Qed.

Lemma main_symbol_chars text :
  chars (main_symbol text) = map upper_char (filter is_letter (chars text)).
Proof.
  unfold main_symbol, findall_letters.
  rewrite chars_upper, chars_join_scan, chars_upper. cbn [rev app].
  induction (chars text) as [ | c cs IH]; cbn [map filter]; [reflexivity|].
  rewrite upper_char_letter. destruct (is_letter c) eqn:E; cbn [map]; rewrite IH; [|reflexivity].
  f_equal. apply upper_char_fixed, upper_char_upper, E.
Qed.

Lemma main_symbol_chars_upper text :
  Forall (fun c => is_upper c = true) (chars (main_symbol text)).
Proof.
  rewrite main_symbol_chars.
  induction (chars text) as [ | c cs IH]; cbn [map filter]; [constructor|].
  destruct (is_letter c) eqn:E; [|exact IH].
  cbn [map]. constructor; [apply upper_char_upper, E|exact IH].
Qed.

(** X1: for ASCII text, the symbol that [main] passes on holds nothing but
    the letters A to Z. *)
Theorem main_symbol_upper_letters text :
  Forall (fun c => is_ascii c = true) (chars text) ->
  Forall (fun c => is_upper c = true) (chars (main_symbol text)).
Proof. intros _. apply main_symbol_chars_upper. Qed.

Lemma main_symbol_upper_letters_witness :
  Forall (fun c => is_upper c = true) (chars (main_symbol "brk.b 2")).
Proof. apply (main_symbol_upper_letters "brk.b 2"). repeat constructor. Defined.

(** X2: on ASCII text the symbol is the letters of the text, in their
    order, in upper case; every other character is dropped. *)
Theorem main_symbol_letters_of_text text :
  Forall (fun c => is_ascii c = true) (chars text) ->
  chars (main_symbol text) = map upper_char (filter is_letter (chars text)).
Proof. intros _. apply main_symbol_chars. Qed.

Lemma main_symbol_letters_of_text_witness :
  chars (main_symbol "brk.b 2") = map upper_char (filter is_letter (chars "brk.b 2")) /\
  main_symbol "brk.b 2" = "BRKB"%string.
Proof.
  split; [|reflexivity].
  apply (main_symbol_letters_of_text "brk.b 2"). repeat constructor.
Defined.

(** X3: cleaning a symbol twice changes nothing more. *)
Theorem main_symbol_idempotent text :
  main_symbol (main_symbol text) = main_symbol text.
Proof.
  apply chars_inj. rewrite (main_symbol_chars (main_symbol text)).
  pose proof (main_symbol_chars_upper text) as H.
  induction H as [ | c cs Hc _ IH]; cbn [map filter]; [reflexivity|].
  rewrite (upper_is_letter c Hc). cbn [map].
  rewrite (upper_char_fixed c Hc), IH. reflexivity.
Qed.

(** X4: two ASCII texts that differ only in the case of their letters
    give the same symbol. *)
Theorem main_symbol_ignores_case text text' :
  Forall (fun c => is_ascii c = true) (chars text) ->
  Forall (fun c => is_ascii c = true) (chars text') ->
  map upper_char (chars text) = map upper_char (chars text') ->
  main_symbol text = main_symbol text'.
Proof.
  intros _ _ H. apply chars_inj. rewrite !main_symbol_chars.
  assert (Hf : forall cs,
             map upper_char (filter is_letter cs)
             = map upper_char (filter is_letter (map upper_char cs))).
  { induction cs as [ | c cs IH]; cbn [map filter]; [reflexivity|].
    rewrite upper_char_letter. destruct (is_letter c) eqn:E; cbn [map]; rewrite <- IH;
      [|reflexivity].
    f_equal. symmetry. apply upper_char_fixed, upper_char_upper, E. }
  rewrite (Hf (chars text)), (Hf (chars text')), H. reflexivity.
Qed.

Lemma main_symbol_ignores_case_witness : main_symbol "aapl" = main_symbol "AaPl".
Proof.
  apply (main_symbol_ignores_case "aapl" "AaPl"); [repeat constructor..|reflexivity].
Defined.

End SymbolFacts.

(** * The default expiration in [main] *)

Module SelectionFacts.
Import Expiry Selection ExpiryFacts.
Open Scope Z_scope.

Section Scan.
Context {A : Type} (key : A -> outcome Z).

Lemma min_scan_member rest :
  forall best best_key r,
    min_scan key best best_key rest = Returns r -> r = best \/ In r rest.
Proof.
  induction rest as [ | x rest IH]; intros best best_key r H; cbn [min_scan] in H.
  - injection H as <-. now left.
  - destruct (key x) as [k | e]; cbn [bind] in H; [|discriminate H].
    destruct (k <? best_key); apply IH in H as [-> | H]; cbn [In]; auto.
Qed.

(** A scan that returns has read the key of every item. *)
Lemma min_scan_keyed rest :
  forall best best_key r,
    min_scan key best best_key rest = Returns r ->
    Forall (fun x => exists k, key x = Returns k) rest.
Proof.
  induction rest as [ | x rest IH]; intros best best_key r H; cbn [min_scan] in H;
    [constructor|].
  destruct (key x) as [k | e] eqn:Hx; cbn [bind] in H; [|discriminate H].
  constructor; [now exists k|].
  destruct (k <? best_key); eapply IH; exact H.
Qed.

(** The scan stops at the first item whose key raises. *)
Lemma min_scan_first_error pre :
  forall best best_key x post e,
    Forall (fun y => exists k, key y = Returns k) pre ->
    key x = Raises e ->
    min_scan key best best_key (pre ++ x :: post) = Raises e.
Proof.
  induction pre as [ | y pre IH]; intros best best_key x post e Hpre Hx;
    cbn [app min_scan].
  - rewrite Hx. reflexivity.
  - inversion Hpre as [ | ? ? [k Hy] Hpre']; subst. rewrite Hy. cbn [bind].
    destruct (k <? best_key); apply IH; assumption.
Qed.

Lemma py_min_returns_iff xs :
  (exists r, py_min xs key = Returns r) <->
  xs <> [] /\ Forall (fun x => exists k, key x = Returns k) xs.
Proof.
  split.
  - intros [r H]. destruct xs as [ | x rest]; [discriminate H|].
    split; [discriminate|]. cbn [py_min] in H.
    destruct (key x) as [k | e] eqn:Hx; cbn [bind] in H; [|discriminate H].
    constructor; [now exists k|]. eapply min_scan_keyed, H.
  - intros [Hne Hk].
    destruct (py_min_first_least key xs Hne Hk) as (r & _ & _ & _ & Hr & _).
    now exists r.
Qed.

Lemma py_min_member xs r : py_min xs key = Returns r -> In r xs.
Proof.
  destruct xs as [ | x rest]; cbn [py_min]; [discriminate|].
  destruct (key x) as [k | e]; cbn [bind]; [|discriminate].
  intros H. apply min_scan_member in H as [-> | H]; cbn [In]; auto.
Qed.

(** What [min] returns has the least key of the list. *)
Lemma py_min_least xs r :
  py_min xs key = Returns r ->
  exists kr, key r = Returns kr /\
             forall y ky, In y xs -> key y = Returns ky -> kr <= ky.
Proof.
  intros H.
  assert (Hex : exists r', py_min xs key = Returns r') by now exists r.
  apply py_min_returns_iff in Hex as [Hne Hk].
  destruct (py_min_first_least key xs Hne Hk)
    as (r' & kr & pre & post & Hr & Hs & Hkr & Hpre & Hpost).
  rewrite Hr in H. injection H as ->.
  exists kr. split; [exact Hkr|].
  intros y ky Hy Hky. rewrite Hs in Hy. apply in_app_or in Hy as [Hy | [<- | Hy]].
  - apply Z.lt_le_incl. eapply Hpre; eassumption.
  - rewrite Hkr in Hky. injection Hky as <-. lia.
  - eapply Hpost; eassumption.
Qed.
End Scan.

Lemma distance_keyed target expirations :
  Forall (fun x => exists k, distance target x = Returns k) expirations <->
  Forall (fun x => exists d, strptime_Ymd x = Returns d) expirations.
Proof.
  split; intros H; (eapply Forall_impl; [|exact H]); cbn beta.
  - intros x [k Hk]. apply distance_returns in Hk as (d & Hd & _). now exists d.
  - intros x [d Hd]. exists (Z.abs (d - target)). apply distance_returns. eauto.
Qed.

Lemma index_member xs x :
  In x xs ->
  exists i, index xs x = Returns i /\ nth_error xs i = Some x /\
            forall j, (j < i)%nat -> nth_error xs j <> Some x.
Proof.
  induction xs as [ | y xs IH]; intros Hin; [destruct Hin|].
  cbn [index]. destruct (String.eqb y x) eqn:E.
  - apply String.eqb_eq in E as ->. exists O. repeat split. intros j Hj. lia.
  - apply String.eqb_neq in E.
    destruct Hin as [-> | Hin]; [congruence|].
    destruct (IH Hin) as (i & Hi & Hn & Hfirst). rewrite Hi. cbn [bind].
    exists (S i). repeat split; [exact Hn|].
    intros [ | j] Hj; cbn [nth_error]; [congruence|]. apply Hfirst. lia.
Qed.

(** X5: whenever the selector returns an expiration, the look-up of its
    position in [main] succeeds, and the position is that of the first
    occurrence of the returned string; the look-up adds no failure of its
    own. *)
Theorem main_default_index_valid today expirations :
  (forall r,
      get_default_expiration today expirations = Returns r ->
      exists i,
        main_default_index today expirations = Returns i /\
        nth_error expirations i = Some r /\
        forall j, (j < i)%nat -> nth_error expirations j <> Some r) /\
  (forall e,
      main_default_index today expirations = Raises e <->
      get_default_expiration today expirations = Raises e).
Proof.
  split.
  - intros r Hr. unfold main_default_index. rewrite Hr. cbn [bind].
    apply index_member. exact (py_min_member _ _ _ Hr).
  - intros e. unfold main_default_index.
    destruct (get_default_expiration today expirations) as [r | e'] eqn:Hr; cbn [bind].
    + destruct (index_member expirations r (py_min_member _ _ _ Hr)) as (i & Hi & _).
      rewrite Hi. split; discriminate.
    + split; intros H; injection H as ->; reflexivity.
Qed.

Lemma main_default_index_valid_witness :
  exists i,
    main_default_index Scenario.reference_date ["2025-01-01"; "2026-01-05"]%string
      = Returns i /\
    nth_error ["2025-01-01"; "2026-01-05"]%string i = Some "2026-01-05"%string /\
    forall j, (j < i)%nat ->
              nth_error ["2025-01-01"; "2026-01-05"]%string j <> Some "2026-01-05"%string.
Proof.
  apply (proj1 (main_default_index_valid Scenario.reference_date
                  ["2025-01-01"; "2026-01-05"]%string)).
  reflexivity.
Defined.

(** X6: the selector returns an expiration exactly when the list is not
    empty and every one of its strings is a date of the form
    year-month-day. *)
Theorem get_default_expiration_returns_iff today expirations :
  (exists r, get_default_expiration today expirations = Returns r) <->
  expirations <> [] /\
  Forall (fun x => exists d, strptime_Ymd x = Returns d) expirations.
Proof.
  unfold get_default_expiration. cbv zeta.
  rewrite py_min_returns_iff, distance_keyed. reflexivity.
Qed.

(** X7: on a list whose first string that is no date is [x], the selector
    fails with the parser's error for [x], whatever follows it. *)
Theorem get_default_expiration_first_error today pre x post e :
  Forall (fun y => exists d, strptime_Ymd y = Returns d) pre ->
  strptime_Ymd x = Raises e ->
  get_default_expiration today (pre ++ x :: post) = Raises e.
Proof.
  intros Hpre Hx. unfold get_default_expiration. cbv zeta.
  set (target := today + timedelta_days 365).
  assert (Hkx : distance target x = Raises e) by (unfold distance; now rewrite Hx).
  apply (distance_keyed target) in Hpre.
  destruct pre as [ | y pre]; cbn [app py_min].
  - now rewrite Hkx.
  - inversion Hpre as [ | ? ? [k Hy] Hpre']; subst. rewrite Hy. cbn [bind].
    apply min_scan_first_error; assumption.
Qed.

Lemma get_default_expiration_first_error_witness :
  get_default_expiration Scenario.reference_date
    (["2026-01-05"%string] ++ "2026-02-30"%string :: ["not a date"%string]) =
  Raises (ValueError "day is out of range for month").
Proof.
  apply (get_default_expiration_first_error Scenario.reference_date
           ["2026-01-05"%string] "2026-02-30" ["not a date"%string]).
  - repeat constructor. eexists. vm_compute. reflexivity.
  - reflexivity.
Defined.

(** X8: the distance of the selected expiration to the target date does
    not depend on the order of the list: on two orderings of the same dates
    the selector returns dates equally far from [today + 365 days] (only
    among equally distant dates does the order decide). *)
Theorem get_default_expiration_order today expirations expirations' r :
  Permutation expirations expirations' ->
  get_default_expiration today expirations = Returns r ->
  exists r' d d',
    get_default_expiration today expirations' = Returns r' /\
    strptime_Ymd r = Returns d /\ strptime_Ymd r' = Returns d' /\
    Z.abs (d - (today + timedelta_days 365)) = Z.abs (d' - (today + timedelta_days 365)).
Proof.
  intros Hperm Hr. set (target := today + timedelta_days 365).
  assert (Hex : exists r0, get_default_expiration today expirations = Returns r0)
    by now exists r.
  apply get_default_expiration_returns_iff in Hex as [Hne Hwf].
  assert (Hex' : exists r', get_default_expiration today expirations' = Returns r').
  { apply get_default_expiration_returns_iff. split.
    - intros ->. apply Permutation_sym, Permutation_nil in Hperm. contradiction.
    - eapply Permutation_Forall; eassumption. }
  destruct Hex' as [r' Hr'].
  unfold get_default_expiration in Hr, Hr'. cbv zeta in Hr, Hr'. fold target in Hr, Hr'.
  pose proof (py_min_member _ _ _ Hr) as Hin.
  pose proof (py_min_member _ _ _ Hr') as Hin'.
  destruct (py_min_least _ _ _ Hr) as (kr & Hkr & Hmin).
  destruct (py_min_least _ _ _ Hr') as (kr' & Hkr' & Hmin').
  pose proof (Hmin r' kr' (Permutation_in _ (Permutation_sym Hperm) Hin') Hkr') as L1.
  pose proof (Hmin' r kr (Permutation_in _ Hperm Hin) Hkr) as L2.
  apply distance_returns in Hkr as (d & Hd & ->).
  apply distance_returns in Hkr' as (d' & Hd' & ->).
  exists r', d, d'. repeat split; try assumption. fold target. lia.
Qed.

Lemma get_default_expiration_order_witness :
  exists r' d d',
    get_default_expiration Scenario.reference_date ["2026-01-11"; "2026-01-09"]%string
      = Returns r' /\
    strptime_Ymd "2026-01-09" = Returns d /\ strptime_Ymd r' = Returns d' /\
    Z.abs (d - (Scenario.reference_date + timedelta_days 365))
    = Z.abs (d' - (Scenario.reference_date + timedelta_days 365)).
Proof.
  apply (get_default_expiration_order Scenario.reference_date
           ["2026-01-09"; "2026-01-11"]%string ["2026-01-11"; "2026-01-09"]%string
           "2026-01-09"%string).
  - apply perm_swap.
  - reflexivity.
Defined.

End SelectionFacts.

(** * Signs of quotients and differences *)

Module SignFacts.
Import Line LineFacts.
Open Scope Z_scope.



(** The quotient of two positive finite values is a zero, a finite value or
    an infinity of sign plus. *)
Lemma SFdiv_positive mx ex my ey :
  signed_as false (SF64div (S754_finite false mx ex) (S754_finite false my ey)).
Proof.
  unfold SF64div. cbn [SFdiv]. unfold SFdiv_core_binary.
  set (e' := Z.min _ _). set (s := ex - ey - e').
  set (m' := match s with Z0 => Zpos mx | Zpos _ => Z.shiftl (Zpos mx) s | Zneg _ => 0 end).
  assert (Hm' : 0 <= m').
  { unfold m'. destruct s; try lia. apply Z.shiftl_nonneg. lia. }
  destruct (Z.div_eucl m' (Zpos my)) as [q r] eqn:E.
  assert (Hq : q = m' / Zpos my) by (unfold Z.div; now rewrite E).
  cbn [xorb]. apply binary_round_aux_signed.
  rewrite Hq. apply Z.div_pos; lia.
Qed.

Open Scope float_scope.

Lemma positive_cases x :
  (0 <? x) = true ->
  (exists m e, Prim2SF x = S754_finite false m e) \/ Prim2SF x = S754_infinity false.
Proof.
  rewrite ltb_spec. change (Prim2SF 0) with (S754_zero false).
  destruct (Prim2SF x) as [s | s | | s m e]; try discriminate;
    destruct s; try discriminate; eauto.
Qed.

Lemma signed_plus_nonneg x :
  signed_as false (Prim2SF x) -> is_nan x = false /\ (0 <=? x) = true.
Proof.
  rewrite is_nan_spec, leb_spec. change (Prim2SF 0) with (S754_zero false).
  destruct (Prim2SF x) as [s | s | | s m e]; cbn [signed_as]; try contradiction;
    intros ->; split; reflexivity.
Qed.




Lemma eqb_zero_cases x : (x =? 0) = true -> exists s, Prim2SF x = S754_zero s.
Proof.
  rewrite eqb_spec. change (Prim2SF 0) with (S754_zero false).
  destruct (Prim2SF x) as [s | s | | s m e]; try discriminate;
    try (destruct s; discriminate). eauto.
Qed.

(** Taking a positive value from a zero gives its opposite. *)
Lemma zero_minus_positive g a :
  (g =? 0) = true -> (0 <? a) = true -> g - a = - a.
Proof.
  intros Hg Ha. apply Prim2SF_inj. rewrite sub_spec, opp_spec.
  destruct (eqb_zero_cases g Hg) as [s ->].
  destruct (positive_cases a Ha) as [(m & e & ->) | ->]; reflexivity.
Qed.

End SignFacts.

(** * More on the leverage engine *)

Module EngineMore.
Import Engine Line LineFacts SignFacts EngineFacts.
Open Scope float_scope.

(** X9: for a positive finite price and a quote with a positive ask, the
    leverage ratio of the row is a number (not NaN) and is not negative. *)
Theorem leverage_ratio_not_negative calls stock_price gain_pct i q :
  nth_error calls i = Some q ->
  (0 <? stock_price) = true ->
  is_finite stock_price = true ->
  (0 <? ask q) = true ->
  exists strikes leverage_ratios adjusted_ratios premiums r,
    calculate_leverage_ratios calls stock_price gain_pct =
      Returns (strikes, leverage_ratios, adjusted_ratios, premiums) /\
    nth_error leverage_ratios i = Some r /\
    is_nan r = false /\ (0 <=? r) = true.
Proof.
  intros Hq Hp Hfin Ha.
  eexists _, _, _, _, _. split; [apply engine_rowwise|].
  split; [apply (map_nth_error (fun q => Spec.leverageRatio stock_price (ask q))), Hq|].
  apply signed_plus_nonneg. unfold Spec.leverageRatio. rewrite div_spec.
  rewrite is_finite_spec in Hfin.
  destruct (positive_cases stock_price Hp) as [(mp & ep & Ep) | Ep];
    rewrite Ep in Hfin |- *; [|discriminate Hfin].
  destruct (positive_cases (ask q) Ha) as [(ma & ea & ->) | ->].
  - apply SFdiv_positive.
  - reflexivity.
Qed.

Lemma leverage_ratio_not_negative_witness :
  exists strikes leverage_ratios adjusted_ratios premiums r,
    calculate_leverage_ratios Scenario.quotes 100 20 =
      Returns (strikes, leverage_ratios, adjusted_ratios, premiums) /\
    nth_error leverage_ratios 1 = Some r /\
    is_nan r = false /\ (0 <=? r) = true.
Proof.
  apply (leverage_ratio_not_negative Scenario.quotes 100 20 1%nat
           {| strike := 100; ask := 5 |}); reflexivity.
Defined.

(** X10: a quote with a finite strike at or above the target price and a
    positive ask loses exactly its premium: the premium gain of the row is
    the opposite of the ask, and its adjusted ratio is
    [(-ask / ask) / (gain_pct / 100)], whatever the strike and the price. *)
Theorem out_of_the_money_loses_premium calls stock_price gain_pct i q :
  nth_error calls i = Some q ->
  is_finite (strike q) = true ->
  (future_price (calculate_leverage_ratios_body calls stock_price gain_pct) <=? strike q)
    = true ->
  (0 <? ask q) = true ->
  nth_error (premium_gains (calculate_leverage_ratios_body calls stock_price gain_pct)) i
    = Some (- ask q) /\
  nth_error (adjusted_ratios (calculate_leverage_ratios_body calls stock_price gain_pct)) i
    = Some ((- ask q / ask q) / (gain_pct / 100)).
Proof.
  intros Hq Hfin Hle Ha.
  assert (Hg : Spec.premiumGain stock_price gain_pct (strike q) (ask q) = - ask q).
  { unfold Spec.premiumGain, Spec.intrinsicGain, Spec.targetPrice.
    rewrite max_spec_numpy. apply zero_minus_positive; [|exact Ha].
    apply clip_of_le; assumption. }
  split.
  - rewrite premium_gains_rowwise, <- Hg.
    apply (map_nth_error
             (fun q => Spec.premiumGain stock_price gain_pct (strike q) (ask q))), Hq.
  - pose proof (engine_rowwise calls stock_price gain_pct) as He.
    unfold calculate_leverage_ratios in He. cbv zeta in He.
    assert (Hadj :
      adjusted_ratios (calculate_leverage_ratios_body calls stock_price gain_pct) =
      map (fun q => Spec.adjustedLeverageRatio stock_price gain_pct (strike q) (ask q)) calls)
      by congruence.
    rewrite Hadj.
    replace (- ask q / ask q / (gain_pct / 100))
      with (Spec.adjustedLeverageRatio stock_price gain_pct (strike q) (ask q))
      by (unfold Spec.adjustedLeverageRatio; now rewrite Hg).
    apply (map_nth_error
             (fun q => Spec.adjustedLeverageRatio stock_price gain_pct (strike q) (ask q))),
          Hq.
Qed.

Lemma out_of_the_money_loses_premium_witness :
  nth_error (premium_gains (calculate_leverage_ratios_body Scenario.quotes 100 5)) 2
    = Some (- 1) /\
  nth_error (adjusted_ratios (calculate_leverage_ratios_body Scenario.quotes 100 5)) 2
    = Some ((- 1 / 1) / (5 / 100)).
Proof.
  apply (out_of_the_money_loses_premium Scenario.quotes 100 5 2%nat
           {| strike := 110; ask := 1 |}); reflexivity.
Defined.



(** The one exception, on the arrays themselves: a strike +0.0 under a
    target price -0.0 has the difference -0.0 and the intrinsic gain +0.0. *)
Example clipped_zero_is_plus_zero :
  intrinsic_gains (calculate_leverage_ratios_body
                     [ {| strike := 0; ask := 1 |} ] 0x1p-1074 (-110)) = [0] /\
  Prim2SF (future_price (calculate_leverage_ratios_body
                     [ {| strike := 0; ask := 1 |} ] 0x1p-1074 (-110)) - 0)
  = S754_zero true.
Proof. split; reflexivity. Qed.

End EngineMore.

(** * More on the strike-range filter *)

Module FilterMore.
Import Engine Line LineFacts EngineFacts FilterFacts.
Open Scope float_scope.

Lemma leb_trans a b c :
  (a <=? b) = true -> (b <=? c) = true -> (a <=? c) = true.
Proof.
  intros Hab Hbc.
  apply leb_ordZ in Hab as (Na & _ & Lab). apply leb_ordZ in Hbc as (_ & Nc & Lbc).
  rewrite is_nan_spec in Na, Nc. rewrite leb_spec. unfold SFleb.
  rewrite (SFcompare_ordZ _ _ (Prim2SF_valid a) (Prim2SF_valid c) Na Nc).
  destruct (Z.compare_spec (ordZ (Prim2SF a)) (ordZ (Prim2SF c))); first [reflexivity | lia].
Qed.

(** A band inside another retains no strike the other drops. *)
Lemma retained_narrower stock_price lo1 hi1 lo2 hi2 s :
  (Band.minStrike stock_price lo1 <=? Band.minStrike stock_price lo2) = true ->
  (Band.maxStrike stock_price hi2 <=? Band.maxStrike stock_price hi1) = true ->
  Band.retained stock_price lo2 hi2 s = true ->
  Band.retained stock_price lo1 hi1 s = true.
Proof.
  unfold Band.retained. intros Hlo Hhi H. apply andb_true_iff in H as [H1 H2].
  apply andb_true_iff. split; eapply leb_trans; eassumption.
Qed.

Lemma select_map {A : Type} (h : A -> float) (f : A -> bool) (xs : list A) :
  Np.select (map h xs) (map f xs) = map h (filter f xs).
Proof.
  induction xs as [ | x xs IH]; cbn [map Np.select filter]; [reflexivity|].
  destruct (f x); cbn [map]; now rewrite IH.
Qed.

Lemma select_kept (f : float -> bool) (ss : list float) :
  Forall (fun s => f s = true) (Np.select ss (map f ss)).
Proof.
  induction ss as [ | s ss IH]; cbn [map Np.select]; [constructor|].
  destruct (f s) eqn:E; [constructor; assumption|exact IH].
Qed.

Lemma select_all (f : float -> bool) (ks : list float) :
  Forall (fun s => f s = true) ks ->
  forall xs, length xs = length ks -> Np.select xs (map f ks) = xs.
Proof.
  induction 1 as [ | k ks Hk _ IH]; intros [ | x xs] Hlen; try discriminate Hlen;
    [reflexivity|].
  injection Hlen as Hlen. cbn [map Np.select]. rewrite Hk, (IH _ Hlen). reflexivity.
Qed.

Lemma subseq_refl {A : Type} (xs : list A) : subseq xs xs.
Proof. induction xs; constructor; assumption. Qed.

Lemma subseq_filters {A : Type} (f g : A -> bool) (xs : list A) :
  (forall x, g x = true -> f x = true) -> subseq (filter g xs) (filter f xs).
Proof.
  intros Himp. induction xs as [ | x xs IH]; cbn [filter]; [constructor|].
  destruct (g x) eqn:G.
  - rewrite (Himp x G). constructor. exact IH.
  - destruct (f x); [constructor|]; exact IH.
Qed.

Lemma subseq_length {A : Type} (xs ys : list A) :
  subseq xs ys -> (length xs <= length ys)%nat.
Proof. induction 1; cbn [length]; lia. Qed.

(** X12: filtering a filtered result again with the same price and range
    returns it unchanged. *)
Theorem filter_by_strike_range_idempotent
  strikes lev adj prem stock_price min_range max_range :
  length lev = length strikes -> length adj = length strikes ->
  length prem = length strikes ->
  exists result,
    filter_by_strike_range (strikes, lev, adj, prem) stock_price min_range max_range =
      Returns result /\
    filter_by_strike_range result stock_price min_range max_range = Returns result.
Proof.
  intros Hl Ha Hp.
  eexists. split; [apply filter_selects; assumption|].
  assert (Hm : length (strike_mask strikes (Band.minStrike stock_price min_range)
                                   (Band.maxStrike stock_price max_range))
               = length strikes)
    by (rewrite strike_mask_map; apply length_map).
  rewrite filter_selects by (rewrite !select_length by congruence; reflexivity).
  rewrite (strike_mask_map (Np.select strikes _)).
  rewrite (strike_mask_map strikes).
  set (f := Band.retained stock_price min_range max_range).
  pose proof (select_kept f strikes) as Hk.
  assert (Hlen : forall xs, length xs = length strikes ->
                            length (Np.select xs (map f strikes))
                            = length (Np.select strikes (map f strikes))).
  { intros xs Hx. rewrite !select_length by (rewrite length_map; congruence).
    reflexivity. }
  rewrite !(select_all f _ Hk) by (apply Hlen; congruence).
  reflexivity.
Qed.

Lemma filter_by_strike_range_idempotent_witness :
  exists result,
    filter_by_strike_range ([90; 100; 110], [100 / 12; 20; 100], [7.5; 15; 45], [12; 5; 1])
                           100 (-5) 10 = Returns result /\
    filter_by_strike_range result 100 (-5) 10 = Returns result.
Proof.
  apply (filter_by_strike_range_idempotent
           [90; 100; 110] [100 / 12; 20; 100] [7.5; 15; 45] [12; 5; 1] 100 (-5) 10);
    reflexivity.
Defined.

(** X13: a band whose computed ends lie within those of another retains a
    sub-sequence of what the other retains, so narrowing the range never
    adds a row. *)
Theorem filter_by_strike_range_narrower
  strikes lev adj prem stock_price lo1 hi1 lo2 hi2 :
  length lev = length strikes -> length adj = length strikes ->
  length prem = length strikes ->
  (Band.minStrike stock_price lo1 <=? Band.minStrike stock_price lo2) = true ->
  (Band.maxStrike stock_price hi2 <=? Band.maxStrike stock_price hi1) = true ->
  exists fs1 fl1 fa1 fp1 fs2 fl2 fa2 fp2,
    filter_by_strike_range (strikes, lev, adj, prem) stock_price lo1 hi1 =
      Returns (fs1, fl1, fa1, fp1) /\
    filter_by_strike_range (strikes, lev, adj, prem) stock_price lo2 hi2 =
      Returns (fs2, fl2, fa2, fp2) /\
    subseq (rows fs2 fl2 fa2 fp2) (rows fs1 fl1 fa1 fp1) /\
    (length (rows fs2 fl2 fa2 fp2) <= length (rows fs1 fl1 fa1 fp1))%nat.
Proof.
  intros Hl Ha Hp Hlo Hhi.
  eexists _, _, _, _, _, _, _, _.
  split; [apply filter_selects; assumption|].
  split; [apply filter_selects; assumption|].
  rewrite !strike_mask_map, !select_rows by assumption.
  assert (Hsub :
    subseq (filter (fun r => Band.retained stock_price lo2 hi2 (row_strike r))
                   (rows strikes lev adj prem))
           (filter (fun r => Band.retained stock_price lo1 hi1 (row_strike r))
                   (rows strikes lev adj prem))).
  { apply subseq_filters. intros r. apply retained_narrower; assumption. }
  split; [exact Hsub|apply subseq_length, Hsub].
Qed.

Lemma filter_by_strike_range_narrower_witness :
  exists fs1 fl1 fa1 fp1 fs2 fl2 fa2 fp2,
    filter_by_strike_range ([90; 100; 110], [100 / 12; 20; 100], [7.5; 15; 45], [12; 5; 1])
                           100 (-10) 10 = Returns (fs1, fl1, fa1, fp1) /\
    filter_by_strike_range ([90; 100; 110], [100 / 12; 20; 100], [7.5; 15; 45], [12; 5; 1])
                           100 (-5) 5 = Returns (fs2, fl2, fa2, fp2) /\
    subseq (rows fs2 fl2 fa2 fp2) (rows fs1 fl1 fa1 fp1) /\
    (length (rows fs2 fl2 fa2 fp2) <= length (rows fs1 fl1 fa1 fp1))%nat.
Proof.
  apply (filter_by_strike_range_narrower
           [90; 100; 110] [100 / 12; 20; 100] [7.5; 15; 45] [12; 5; 1] 100 (-10) 10 (-5) 5);
    reflexivity.
Defined.

(** X14: computing and then filtering gives what computing on the filtered
    chain gives: [main] returns the engine's arrays for the quotes whose
    strike lies in the band, and for no others. *)
Theorem main_filters_quotes calls stock_price target_percentage min_range max_range :
  main calls stock_price target_percentage min_range max_range =
  calculate_leverage_ratios
    (filter (fun q => Band.retained stock_price min_range max_range (strike q)) calls)
    stock_price target_percentage.
Proof.
  unfold main. rewrite !engine_rowwise. cbn [bind].
  rewrite filter_selects by (now rewrite !length_map).
  rewrite strike_mask_map, map_map.
  rewrite !(select_map _ (fun q => Band.retained stock_price min_range max_range (strike q))).
  reflexivity.
Qed.

(** X15: the break-even prices that label the plot's secondary axis are,
    tick by tick, strike + ask of the very quote whose strike is the tick:
    one label per retained quote, in the order of the chain. *)
Theorem main_break_even_prices_aligned
  calls stock_price target_percentage min_range max_range :
  Plot.main_break_even_prices calls stock_price target_percentage min_range max_range =
  Returns
    (map strike
       (filter (fun q => Band.retained stock_price min_range max_range (strike q)) calls),
     map (fun q => PrimFloat.add (strike q) (ask q))
       (filter (fun q => Band.retained stock_price min_range max_range (strike q)) calls)).
Proof.
  unfold Plot.main_break_even_prices. rewrite main_filters_quotes, engine_rowwise.
  cbn [bind]. unfold Plot.break_even_prices.
  rewrite (zip_with_map PrimFloat.add strike ask). reflexivity.
Qed.

End FilterMore.
